(** * bufferlinks: HTML link extraction, article assembly and state
      reconciliation (app.go and the link store).

    The development follows the Go sources function by function.  Library
    calls the repository does not define (net/url, x/net/html, rss, gorp,
    strings.ToLower, sort.Sort) are section variables; everything the
    repository itself computes is an executable definition. *)

From Stdlib Require Import List String Ascii Bool ZArith NArith Arith Lia.
From Stdlib Require Import Permutation Sorted.
Import ListNotations.
Open Scope string_scope.
Open Scope list_scope.

Set Implicit Arguments.

(** ** Go values used by the program *)

(** [time.Time], abstracted to the instant it denotes, counted from the zero
    time (January 1, year 1, 00:00:00 UTC). *)
Definition Time := Z.
Definition Time_zero : Time := 0%Z.
Definition IsZero (t : Time) : bool := Z.eqb t 0.
Definition Before (t u : Time) : bool := Z.ltb t u.

(** Go's [error] values: the sentinel [sql.ErrNoRows], compared by identity
    in the source, and every other error, carried with its message. *)
Inductive error : Type :=
| ErrNoRows
| ErrOther (msg : string).

Definition Error (e : error) : string :=
  match e with
  | ErrNoRows => "sql: no rows in result set"
  | ErrOther m => m
  end.

Definition is_ErrNoRows (e : error) : bool :=
  match e with ErrNoRows => true | ErrOther _ => false end.

(** [strings.Contains]. *)
Fixpoint Contains (s sub : string) : bool :=
  String.prefix sub s
  || match s with
     | EmptyString => false
     | String _ s' => Contains s' sub
     end.

(** ** html.Node as a finite tree *)

Inductive NodeType : Type :=
| ErrorNode | TextNode | DocumentNode | ElementNode | CommentNode | DoctypeNode.

Definition NodeType_eqb (a b : NodeType) : bool :=
  match a, b with
  | ErrorNode, ErrorNode | TextNode, TextNode | DocumentNode, DocumentNode
  | ElementNode, ElementNode | CommentNode, CommentNode
  | DoctypeNode, DoctypeNode => true
  | _, _ => false
  end.

(** [atom.Atom] is a uint32 code; [atom.A] is the code of the anchor tag in
    x/net/html/atom's table.  Only equality with [atom_A] is ever used. *)
Definition Atom := N.
Definition atom_A : Atom := 1%N.

Record Attribute : Type := mkAttribute {
  Namespace : string;
  Key : string;
  Val : string
}.

(** The fields of [html.Node] that app.go reads.  The chain
    [FirstChild], [NextSibling], ... of a node is its list of children. *)
Unset Elimination Schemes.
Inductive Node : Type :=
| mkNode (Type_ : NodeType) (DataAtom : Atom) (Data : string)
         (Attr : list Attribute) (children : list Node).
Set Elimination Schemes.

Definition Type_ (n : Node) : NodeType := let (t, _, _, _, _) := n in t.
Definition DataAtom (n : Node) : Atom := let (_, a, _, _, _) := n in a.
Definition Data (n : Node) : string := let (_, _, d, _, _) := n in d.
Definition Attr (n : Node) : list Attribute := let (_, _, _, a, _) := n in a.
Definition children (n : Node) : list Node := let (_, _, _, _, c) := n in c.

(** Document order: a node, then the subtrees of its children, left to
    right. *)
Fixpoint preorder (n : Node) : list Node :=
  match n with
  | mkNode _ _ _ _ cs => n :: flat_map preorder cs
  end.

Fixpoint size (n : Node) : nat :=
  match n with
  | mkNode _ _ _ _ cs => S (list_sum (map size cs))
  end.

(** ** The visitor interface and walkHTML *)

(** [type visitor interface { visit(n *html.Node) visitor }].  A visitor value
    is a reference [v : V] into some mutable state [S]; [visit] may update the
    state and returns the successor visitor, or [None] for Go's nil. *)
Class visitor (V S : Type) : Type :=
  visit : V -> option Node -> S -> option V * S.

Section Walk.
Context {V S : Type} {VS : visitor V S}.

Fixpoint walkHTML (n : Node) (v : V) (s : S) : S :=
  match visit v (Some n) s with
  | (None, s1) => s1
  | (Some vv, s1) =>
      let s2 :=
        (fix loop (cs : list Node) (s : S) : S :=
           match cs with
           | [] => s
           | child :: rest => loop rest (walkHTML child vv s)
           end) (children n) s1 in
      snd (visit v None s2)
  end.

(** The [for child := n.FirstChild; ...] loop on its own. *)
Fixpoint walkChildren (cs : list Node) (vv : V) (s : S) : S :=
  match cs with
  | [] => s
  | child :: rest => walkChildren rest vv (walkHTML child vv s)
  end.

End Walk.

(** ** Records of app.go, the link store and the libraries *)

Module url.
Record URL : Type := mk { Host : string }.
End url.

Module link.
Record t : Type := mk {
  ID : Z;
  URL : string;
  Domain : string;
  Context : string;
  Queued : bool;     (* populated from DB *)
  QueuedAt : Time    (* populated from DB *)
}.
End link.

(** [article] holds [Links []*link].  [L] is the type standing for [*link]:
    the link itself where nothing is written through the pointer (extraction
    and [fetch]), a heap location where [articles] writes through it. *)
Module article.
Record t (L : Type) : Type := mk {
  ID : Z;
  Title : string;
  URL : string;
  Links : list L;
  Feed : string;
  Date : Time
}.
End article.

Module articleState.
Record t : Type := mk {
  ID : Z;
  URL : string;
  DismissedAt : Time
}.
End articleState.

Module linkState.
Record t : Type := mk {
  ID : Z;
  URL : string;
  ArticleURL : string;
  QueuedAt : Time
}.
End linkState.

(** The fields of [rss.Item] and [rss.Feed] that [fetch] reads. *)
Module rss.
Module Item.
Record t : Type := mk {
  Title : string;
  Link : string;
  Content : string;
  Date : Time
}.
End Item.
Module Feed.
Record t : Type := mk {
  Title : string;
  Link : string;
  Items : list Item.t
}.
End Feed.
End rss.

(** ** flattenVisitor and flatten *)

Record flattenVisitor : Type := mkFlattenVisitor { out : string }.

(** The receiver [&v] is the only visitor reference of a flattening walk. *)
#[export] Instance flattenVisitor_visit : visitor unit flattenVisitor :=
  fun v n s =>
    match n with
    | None => (None, s)
    | Some n =>
        if NodeType_eqb (Type_ n) TextNode
        then (Some v, mkFlattenVisitor (out s ++ (Data n ++ " ")))
        else (Some v, s)
    end.

Definition flatten (n : Node) : string :=
  out (walkHTML n tt (mkFlattenVisitor "")).

(** ** attr, linkVisitor, findLinks, fetch *)

Record linkVisitor : Type := mkLinkVisitor {
  parent : option Node;
  links : list link.t
}.

Section Extraction.

(** [strings.ToLower]. *)
Variable ToLower : string -> string.

(** [url.Parse]. *)
Variable url_Parse : string -> url.URL + error.

(** [html.Parse(strings.NewReader(s))]. *)
Variable html_Parse : string -> Node + error.

(** [rss.Fetch]. *)
Variable rss_Fetch : string -> rss.Feed.t + error.

Fixpoint attr_loop (ats : list Attribute) (name : string) : string :=
  match ats with
  | [] => ""
  | at_ :: rest =>
      if String.eqb (ToLower (Key at_)) name then Val at_
      else attr_loop rest name
  end.

Definition attr (n : Node) (name : string) : string :=
  attr_loop (Attr n) name.

#[export] Instance linkVisitor_visit : visitor unit linkVisitor :=
  fun v n s =>
    match n with
    | None => (None, s)
    | Some n =>
        let s' :=
          if NodeType_eqb (Type_ n) ElementNode && N.eqb (DataAtom n) atom_A
          then
            let href := attr n "href" in
            if negb (String.eqb href "")
            then
              match url_Parse href with
              | inl url =>
                  mkLinkVisitor (parent s)
                    (links s ++
                     [link.mk 0 href (url.Host url) (flatten n)
                        false Time_zero])
              | inr _ => s
              end
            else s
          else s in
        (Some v, s')
    end.

(** Go's pair [([]*link, error)]: [(nil, err)] or [(v.links, nil)]. *)
Definition findLinks (s : string) : list link.t * option error :=
  match html_Parse s with
  | inr err => ([], Some err)
  | inl root => (links (walkHTML root tt (mkLinkVisitor None [])), None)
  end.

(** The inner loop of [fetch] that drops links back into the feed's host. *)
Fixpoint fetch_filter (feedurl : url.URL) (ls filtered : list link.t)
  : list link.t :=
  match ls with
  | [] => filtered
  | l :: rest =>
      match url_Parse (link.URL l) with
      | inl linkurl =>
          if String.eqb (url.Host linkurl) (url.Host feedurl)
          then fetch_filter feedurl rest filtered
          else fetch_filter feedurl rest (filtered ++ [l])
      | inr _ => fetch_filter feedurl rest (filtered ++ [l])
      end
  end.

(** The loop over [feed.Items]; [log.Printf] writes to the log only. *)
Fixpoint fetch_items (feed : rss.Feed.t) (feedurl : url.URL)
  (items : list rss.Item.t) (all : list (article.t link.t))
  : list (article.t link.t) :=
  match items with
  | [] => all
  | item :: rest =>
      if negb (Contains (ToLower (rss.Item.Title item)) "link")
      then fetch_items feed feedurl rest all
      else
        let (ls, _) := findLinks (rss.Item.Content item) in
        let filtered := fetch_filter feedurl ls [] in
        if (0 <? List.length ls)%nat
        then fetch_items feed feedurl rest
               (all ++ [article.mk 0 (rss.Item.Title item)
                          (rss.Item.Link item) filtered
                          (rss.Feed.Title feed) (rss.Item.Date item)])
        else fetch_items feed feedurl rest all
  end.

Definition fetch (urlstr : string) : list (article.t link.t) + error :=
  match rss_Fetch urlstr with
  | inr err => inr err
  | inl feed =>
      match url_Parse (rss.Feed.Link feed) with
      | inr err => inr err
      | inl feedurl => inl (fetch_items feed feedurl (rss.Feed.Items feed) [])
      end
  end.

End Extraction.

(** ** The link store *)

(** [linkStore] wraps a gorp [DbMap]; the two fields stand for
    [s.db.SelectOne(&holder, query, url)] with the query on the articles
    table and on the links table: the filled holder, or the error. *)
Record linkStore : Type := mkLinkStore {
  SelectOne_articles : string -> articleState.t + error;
  SelectOne_links : string -> linkState.t + error
}.

(** The Go result pair: a pointer to the state (nil is None), and the error. *)
Definition findArticle (s : linkStore) (url : string)
  : option articleState.t * option error :=
  match SelectOne_articles s url with
  | inr err => (None, Some err)
  | inl article => (Some article, None)
  end.

Definition findLink (s : linkStore) (url : string)
  : option linkState.t * option error :=
  match SelectOne_links s url with
  | inr err => (None, Some err)
  | inl link => (Some link, None)
  end.

(** ** app.articles: reconciliation against the store *)

(** Go pointers [*link] are heap locations; a location always holds a link
    ([&link{...}] is never nil or dangling). *)
Definition loc := nat.
Definition heap := loc -> link.t.

Definition heap_set (h : heap) (l : loc) (x : link.t) : heap :=
  fun l' => if Nat.eqb l' l then x else h l'.

(** Articles are only read through their pointers, so [[]*article] is a list
    of article values whose links are locations. *)
Record app : Type := mkApp {
  store : linkStore;
  lastFetch : list (article.t loc)
}.

Definition byDate_Less (x y : article.t loc) : bool :=
  Before (article.Date x) (article.Date y).

(** [err != nil && err != sql.ErrNoRows]. *)
Definition lookup_failed (err : option error) : bool :=
  match err with
  | Some e => negb (is_ErrNoRows e)
  | None => false
  end.

(** [fmt.Errorf("error while looking up <what> from %s in DB: %v", url, err)]. *)
Definition Errorf_lookup (what url : string) (err : option error) : error :=
  ErrOther ("error while looking up " ++ what ++ " from " ++ url ++ " in DB: "
            ++ match err with Some e => Error e | None => "<nil>" end).

(** [state != nil && !state.DismissedAt.IsZero()]. *)
Definition is_dismissed (state : option articleState.t) : bool :=
  match state with
  | Some st => negb (IsZero (articleState.DismissedAt st))
  | None => false
  end.

(** The two assignments [link.Queued = true; link.QueuedAt = state.QueuedAt]
    through the pointer. *)
Definition mark_queued (h : heap) (l : loc) (st : linkState.t) : heap :=
  heap_set h l
    (link.mk (link.ID (h l)) (link.URL (h l)) (link.Domain (h l))
       (link.Context (h l)) true (linkState.QueuedAt st)).

(** The loop over [article.Links]; [aurl] is [article.URL]. *)
Fixpoint articles_links (s : linkStore) (aurl : string) (ls : list loc)
  (h : heap) : option error * heap :=
  match ls with
  | [] => (None, h)
  | l :: rest =>
      let (state, err) := findLink s (link.URL (h l)) in
      if lookup_failed err
      then (Some (Errorf_lookup "link" aurl err), h)
      else
        let h' := match state with
                  | Some st => mark_queued h l st
                  | None => h
                  end in
        articles_links s aurl rest h'
  end.

(** The loop over [a.lastFetch]; [log.Printf] writes to the log only. *)
Fixpoint articles_loop (s : linkStore) (batch filtered : list (article.t loc))
  (h : heap) : (list (article.t loc) + error) * heap :=
  match batch with
  | [] => (inl filtered, h)
  | a :: rest =>
      let (state, err) := findArticle s (article.URL a) in
      if lookup_failed err
      then (inr (Errorf_lookup "article" (article.URL a) err), h)
      else if is_dismissed state
      then articles_loop s rest filtered h
      else
        match articles_links s (article.URL a) (article.Links a) h with
        | (Some e, h') => (inr e, h')
        | (None, h') => articles_loop s rest (filtered ++ [a]) h'
        end
  end.

Section Reconcile.

(** [sort.Sort] on a slice with the given [Less]; [filtered] is a slice of
    its own, so sorting it in place leaves [a.lastFetch] as it was. *)
Variable sort_Sort :
  forall A : Type, (A -> A -> bool) -> list A -> list A.

(** The returned pair [([]*article, error)] with the heap after the call. *)
Definition articles (a : app) (h : heap)
  : (list (article.t loc) + error) * heap :=
  match articles_loop (store a) (lastFetch a) [] h with
  | (inl filtered, h') => (inl (sort_Sort byDate_Less filtered), h')
  | (inr err, h') => (inr err, h')
  end.

End Reconcile.

(** ** html.Node as Go stores it: nodes linked by pointers *)

Definition ptr := nat.

Record html_Node : Type := mkHtmlNode {
  nType : NodeType;
  nDataAtom : Atom;
  nData : string;
  nAttr : list Attribute;
  FirstChild : option ptr;   (* nil is None *)
  NextSibling : option ptr
}.

Definition mem := ptr -> html_Node.

(** A visitor over pointers; the outer [None] is a [visit] that does not
    return. *)
Class ptr_visitor (V S : Type) : Type :=
  ptr_visit : V -> option ptr -> S -> option (option V * S).

Section PtrWalk.
Context {V St : Type} {VS : ptr_visitor V St}.
Variable m : mem.

(** [walkHTML] on the pointer structure, with the recursion depth and the
    length of the sibling loop bounded by [fuel]; [None] is out of fuel. *)
Fixpoint ptr_walkHTML (fuel : nat) (n : ptr) (v : V) (s : St) : option St :=
  match fuel with
  | O => None
  | S fuel' =>
      match ptr_visit v (Some n) s with
      | None => None
      | Some (None, s1) => Some s1
      | Some (Some vv, s1) =>
          match ptr_walkSiblings fuel' (FirstChild (m n)) vv s1 with
          | None => None
          | Some s2 =>
              match ptr_visit v None s2 with
              | None => None
              | Some (_, s3) => Some s3
              end
          end
      end
  end
with ptr_walkSiblings (fuel : nat) (child : option ptr) (vv : V) (s : St)
  : option St :=
  match fuel with
  | O => None
  | S fuel' =>
      match child with
      | None => Some s
      | Some c =>
          match ptr_walkHTML fuel' c vv s with
          | None => None
          | Some s' => ptr_walkSiblings fuel' (NextSibling (m c)) vv s'
          end
      end
  end.

End PtrWalk.

(** The node a pointer holds, given the trees of its children. *)
Definition node_at (m : mem) (p : ptr) (cs : list Node) : Node :=
  mkNode (nType (m p)) (nDataAtom (m p)) (nData (m p)) (nAttr (m p)) cs.

(** The pointer structure from [p] on lays out the finite trees [ts]: [p]
    and its [NextSibling] chain are the roots, in order.  Being inductive,
    the relation holds only of finite, acyclic structures. *)
Inductive lays_out (m : mem) : option ptr -> list Node -> Prop :=
| lays_out_nil : lays_out m None []
| lays_out_cons p cs sibs :
    lays_out m (FirstChild (m p)) cs ->
    lays_out m (NextSibling (m p)) sibs ->
    lays_out m (Some p) (node_at m p cs :: sibs).

(** The node at [p] with everything below it is the finite tree [t]; what
    [walkHTML(p, v)] can reach. *)
Definition subtree_at (m : mem) (p : ptr) (t : Node) : Prop :=
  exists cs, lays_out m (FirstChild (m p)) cs /\ t = node_at m p cs.

Definition ptr_flattenVisitor_visit (m : mem) : ptr_visitor unit flattenVisitor :=
  fun v n s =>
    match n with
    | None => Some (None, s)
    | Some n =>
        if NodeType_eqb (nType (m n)) TextNode
        then Some (Some v, mkFlattenVisitor (out s ++ (nData (m n) ++ " ")))
        else Some (Some v, s)
    end.

Definition ptr_flatten (fuel : nat) (m : mem) (n : ptr) : option string :=
  option_map out
    (ptr_walkHTML (VS := ptr_flattenVisitor_visit m) m fuel n tt
       (mkFlattenVisitor "")).

Section PtrExtraction.
Variable ToLower : string -> string.
Variable url_Parse : string -> url.URL + error.
Variable fuel : nat.
Variable m : mem.

Definition ptr_linkVisitor_visit : ptr_visitor unit linkVisitor :=
  fun v n s =>
    match n with
    | None => Some (None, s)
    | Some n =>
        if NodeType_eqb (nType (m n)) ElementNode
           && N.eqb (nDataAtom (m n)) atom_A
        then
          let href := attr_loop ToLower (nAttr (m n)) "href" in
          if negb (String.eqb href "")
          then
            match url_Parse href with
            | inl url =>
                match ptr_flatten fuel m n with
                | None => None
                | Some ctx =>
                    Some (Some v,
                          mkLinkVisitor (parent s)
                            (links s ++
                             [link.mk 0 href (url.Host url) ctx
                                false Time_zero]))
                end
            | inr _ => Some (Some v, s)
            end
          else Some (Some v, s)
        else Some (Some v, s)
    end.

(** The walk of [findLinks] from the parsed root. *)
Definition ptr_findLinks_walk (root : ptr) : option (list link.t) :=
  option_map links
    (ptr_walkHTML (VS := ptr_linkVisitor_visit) m fuel root tt
       (mkLinkVisitor None [])).

End PtrExtraction.

(** ** Definitions used to state the properties *)

(** A visitor that behaves as [VS] and records, in order, every call
    [visit(n)] made on it: the receiver and the argument. *)
Definition traced {V S : Type} (VS : visitor V S)
  : visitor V (S * list (V * option Node)) :=
  fun v n st =>
    let (r, s') := visit v n (fst st) in (r, (s', snd st ++ [(v, n)])).

Definition trace_of {V S : Type} {VS : visitor V S} (n : Node) (v : V) (s : S)
  : list (V * option Node) :=
  snd (walkHTML (VS := traced VS) n v (s, [])).

(** The calls made while walking the children [cs] with [vv], each child
    from the state the previous one left. *)
Fixpoint trace_children {V S : Type} {VS : visitor V S} (cs : list Node)
  (vv : V) (s : S) : list (V * option Node) :=
  match cs with
  | [] => []
  | child :: rest =>
      trace_of child vv s ++ trace_children rest vv (walkHTML child vv s)
  end.

(** The text of a subtree as the specification words it: the raw content of
    every text node, in document order, each followed by one space. *)
Definition is_text (n : Node) : bool := NodeType_eqb (Type_ n) TextNode.

Definition concat_strings (ss : list string) : string :=
  fold_right String.append "" ss.

Definition texts_of (ns : list Node) : string :=
  concat_strings (map (fun t => (Data t ++ " ")%string) (filter is_text ns)).

Definition subtree_text (n : Node) : string := texts_of (preorder n).

Section ExtractionSpec.
Variable ToLower : string -> string.
Variable url_Parse : string -> url.URL + error.

(** An anchor element. *)
Definition is_anchor (n : Node) : bool :=
  NodeType_eqb (Type_ n) ElementNode && N.eqb (DataAtom n) atom_A.

(** An anchor whose href is present, not empty, and parses as a URL. *)
Definition valid_anchor (n : Node) : bool :=
  is_anchor n
  && negb (String.eqb (attr ToLower n "href") "")
  && match url_Parse (attr ToLower n "href") with
     | inl _ => true
     | inr _ => false
     end.

Definition parsed_host (s : string) : string :=
  match url_Parse s with
  | inl u => url.Host u
  | inr _ => ""
  end.

(** The Link the specification expects for a valid anchor. *)
Definition link_at (n : Node) : link.t :=
  link.mk 0 (attr ToLower n "href") (parsed_host (attr ToLower n "href"))
    (flatten n) false Time_zero.

End ExtractionSpec.

(** A link as extraction leaves it. *)
Definition unqueued (l : link.t) : Prop :=
  link.Queued l = false /\ link.QueuedAt l = Time_zero.

(** The assembler as the specification words it. *)
Section AssemblerSpec.
Variable ToLower : string -> string.
Variable url_Parse : string -> url.URL + error.
Variable html_Parse : string -> Node + error.

(** The title filter. *)
Definition passes_title (item : rss.Item.t) : bool :=
  Contains (ToLower (rss.Item.Title item)) "link".

(** The unfiltered extraction from the item's content. *)
Definition extracted (item : rss.Item.t) : list link.t :=
  fst (findLinks ToLower url_Parse html_Parse (rss.Item.Content item)).

(** A link whose host differs from the feed's host. *)
Definition outbound (feedhost : string) (l : link.t) : bool :=
  negb (String.eqb (link.Domain l) feedhost).

(** Parsing the URL of a link again gives its Domain. *)
Definition reparses (l : link.t) : Prop :=
  exists u, url_Parse (link.URL l) = inl u /\ url.Host u = link.Domain l.

Definition assemble (feed : rss.Feed.t) (feedurl : url.URL)
  (item : rss.Item.t) : list (article.t link.t) :=
  if passes_title item
  then
    match extracted item with
    | [] => []
    | ls =>
        [article.mk 0 (rss.Item.Title item) (rss.Item.Link item)
           (filter (outbound (url.Host feedurl)) ls)
           (rss.Feed.Title feed) (rss.Item.Date item)]
    end
  else [].

End AssemblerSpec.

(** ** Reconciliation: the notions the properties are stated with *)

(** What the documentation of [sort.Sort] promises for a [Less] that is a
    strict weak ordering: the result is a rearrangement of the input on which
    [sort.IsSorted] holds.  The documentation adds that the sort is not
    guaranteed to be stable. *)
Definition strict_weak_order {A : Type} (less : A -> A -> bool) : Prop :=
  (forall x, less x x = false) /\
  (forall x y z, less x y = true -> less y z = true -> less x z = true) /\
  (forall x y z,
      less x y = false -> less y x = false ->
      less y z = false -> less z y = false ->
      less x z = false /\ less z x = false).

(** [sort.IsSorted]: no element is [Less] than its predecessor. *)
Definition IsSorted {A : Type} (less : A -> A -> bool) (l : list A) : Prop :=
  Sorted (fun x y => less y x = false) l.

Definition sort_contract
  (sort : forall A : Type, (A -> A -> bool) -> list A -> list A) : Prop :=
  forall (A : Type) (less : A -> A -> bool),
    strict_weak_order less ->
    forall l, Permutation (sort A less l) l /\ IsSorted less (sort A less l).

(** A sort within that contract, used to run [articles]: a ShellSort pass
    with gap 6 followed by insertion sort.  This is what [sort.Sort] did on
    slices of at most 12 elements up to Go 1.18 (from Go 1.19 on it is
    insertion sort alone up to 12 elements, and pattern-defeating quicksort
    beyond). *)
Fixpoint update {A : Type} (l : list A) (i : nat) (x : A) : list A :=
  match l, i with
  | [], _ => []
  | _ :: rest, O => x :: rest
  | y :: rest, S i' => y :: update rest i' x
  end.

(** [data.Swap(i, j)] and [data.Less(i, j)] on a slice. *)
Definition Swap {A : Type} (l : list A) (i j : nat) : list A :=
  match nth_error l i, nth_error l j with
  | Some x, Some y => update (update l i y) j x
  | _, _ => l
  end.

Definition Less_at {A : Type} (less : A -> A -> bool) (l : list A) (i j : nat)
  : bool :=
  match nth_error l i, nth_error l j with
  | Some x, Some y => less x y
  | _, _ => false
  end.

(** [for i := a + 6; i < b; i++ { if data.Less(i, i-6) { data.Swap(i, i-6) } }],
    with [steps] iterations left. *)
Fixpoint shell_pass {A : Type} (less : A -> A -> bool) (steps i : nat)
  (l : list A) : list A :=
  match steps with
  | O => l
  | S steps' =>
      shell_pass less steps' (S i)
        (if Less_at less l i (i - 6) then Swap l i (i - 6) else l)
  end.

(** Insertion of [x] into a sorted prefix: [x] moves left past the elements
    it is [Less] than and stops behind the first one it is not. *)
Fixpoint insert_after {A : Type} (less : A -> A -> bool) (x : A) (l : list A)
  : list A :=
  match l with
  | [] => [x]
  | y :: rest =>
      if less x y then x :: y :: rest else y :: insert_after less x rest
  end.

(** [insertionSort]: each element in turn is inserted into the sorted prefix
    to its left. *)
Definition insertionSort {A : Type} (less : A -> A -> bool) (l : list A)
  : list A :=
  fold_left (fun sorted x => insert_after less x sorted) l [].

Definition small_Sort (A : Type) (less : A -> A -> bool) (l : list A)
  : list A :=
  insertionSort less (shell_pass less (List.length l - 6) 6 l).

(** The articles of a batch that have no dismissal on record, in batch
    order. *)
Definition retained (s : linkStore) (batch : list (article.t loc))
  : list (article.t loc) :=
  filter (fun a => negb (is_dismissed (fst (findArticle s (article.URL a)))))
    batch.

(** The fields of a link that extraction sets. *)
Definition same_identity (x y : link.t) : Prop :=
  link.ID y = link.ID x /\ link.URL y = link.URL x /\
  link.Domain y = link.Domain x /\ link.Context y = link.Context x.

(** [y] carries the queue record [st]. *)
Definition queued_from (st : linkState.t) (y : link.t) : Prop :=
  link.Queued y = true /\ link.QueuedAt y = linkState.QueuedAt st.

(** How reconciliation against [s] may change a link [x] into [y]: only by
    flagging it from the LinkState found for its URL. *)
Definition link_step (s : linkStore) (x y : link.t) : Prop :=
  same_identity x y /\
  match fst (findLink s (link.URL x)) with
  | Some st => y = x \/ queued_from st y
  | None => y = x
  end.

(** The store lookups reconciling a batch asks for, in order. *)
Inductive lookup : Type :=
| LookupArticle (url : string)
| LookupLink (article_url link_url : string).

Definition lookup_url (q : lookup) : string :=
  match q with
  | LookupArticle u => u
  | LookupLink _ u => u
  end.

Definition lookup_error (s : linkStore) (q : lookup) : option error :=
  match q with
  | LookupArticle u => snd (findArticle s u)
  | LookupLink _ u => snd (findLink s u)
  end.

Definition lookup_fails (s : linkStore) (q : lookup) : bool :=
  lookup_failed (lookup_error s q).

Definition lookups_of (s : linkStore) (h : heap) (a : article.t loc)
  : list lookup :=
  LookupArticle (article.URL a)
  :: (if is_dismissed (fst (findArticle s (article.URL a))) then []
      else map (fun l => LookupLink (article.URL a) (link.URL (h l)))
             (article.Links a)).

Definition lookups (s : linkStore) (h : heap) (batch : list (article.t loc))
  : list lookup :=
  flat_map (lookups_of s h) batch.

(** The articles with a given date, in list order. *)
Definition dated (d : Time) (l : list (article.t loc)) : list (article.t loc) :=
  filter (fun a => Z.eqb (article.Date a) d) l.

(** The error [articles] builds when the lookup [q] fails. *)
Definition lookup_Errorf (s : linkStore) (q : lookup) : error :=
  match q with
  | LookupArticle u => Errorf_lookup "article" u (lookup_error s q)
  | LookupLink au _ => Errorf_lookup "link" au (lookup_error s q)
  end.

(** ** Sample inputs *)

Module Sample.

(** [strings.ToLower] on ASCII text. *)
Definition lower_ascii (c : ascii) : ascii :=
  let n := nat_of_ascii c in
  if (65 <=? n)%nat && (n <=? 90)%nat then ascii_of_nat (n + 32) else c.

Fixpoint ToLower (s : string) : string :=
  match s with
  | EmptyString => EmptyString
  | String c rest => String (lower_ascii c) (ToLower rest)
  end.

Fixpoint until_slash (s : string) : string :=
  match s with
  | EmptyString => EmptyString
  | String c rest =>
      if Ascii.eqb c "/"%char then EmptyString else String c (until_slash rest)
  end.

(** A stand-in for [url.Parse] on the URLs of these samples: the host of an
    http URL, no host for other text, and an error on a percent sign. *)
Definition url_Parse (s : string) : url.URL + error :=
  if Contains s "%" then inr (ErrOther "invalid URL escape")
  else if String.prefix "http://" s
  then inl (url.mk (until_slash (String.substring 7 (String.length s) s)))
  else inl (url.mk "").

Definition text (d : string) : Node := mkNode TextNode 0%N d [] [].

Definition anchor (ats : list Attribute) (cs : list Node) : Node :=
  mkNode ElementNode atom_A "a" ats cs.

Definition element (tag : string) (cs : list Node) : Node :=
  mkNode ElementNode 0%N tag [] cs.

(** Four anchors: a self-link, an outbound link with an upper-case key and
    nested markup, an anchor without href, and one whose href does not
    parse. *)
Definition doc : Node :=
  mkNode DocumentNode 0%N "" []
    [element "html"
       [element "body"
          [anchor [mkAttribute "" "href" "http://example.com/x"] [text "home"];
           text " and ";
           anchor [mkAttribute "" "HREF" "http://other.com/y"]
             [text "see"; element "b" [text " this "]];
           anchor [] [text "nothing"];
           anchor [mkAttribute "" "href" "%zz"] [text "broken"]]]].

Definition html_Parse (s : string) : Node + error :=
  if String.eqb s "" then inr (ErrOther "EOF") else inl doc.

Definition feed : rss.Feed.t :=
  rss.Feed.mk "Example" "http://example.com/"
    [rss.Item.mk "Assorted Links" "http://example.com/post1" "<html>" 3%Z;
     rss.Item.mk "An essay" "http://example.com/post2" "<html>" 2%Z;
     rss.Item.mk "More links" "http://example.com/post3" "" 1%Z].

Definition rss_Fetch (urlstr : string) : rss.Feed.t + error :=
  if String.eqb urlstr "http://example.com/feed" then inl feed
  else inr (ErrOther "404").

(** A store with one dismissal and one queued link. *)
Definition db : linkStore :=
  mkLinkStore
    (fun u => if String.eqb u "http://example.com/old"
              then inl (articleState.mk 1 u 100%Z)
              else inr ErrNoRows)
    (fun u => if String.eqb u "http://other.com/y"
              then inl (linkState.mk 1 u "" 42%Z)
              else inr ErrNoRows).

(** A store without any record. *)
Definition empty_db : linkStore :=
  mkLinkStore (fun _ => inr ErrNoRows) (fun _ => inr ErrNoRows).

(** A store whose links table cannot be read. *)
Definition broken_db : linkStore :=
  mkLinkStore (fun _ => inr ErrNoRows)
    (fun _ => inr (ErrOther "disk I/O error")).

Definition fresh (u d : string) : link.t := link.mk 0 u d "" false Time_zero.

Definition mem0 : heap :=
  fun l =>
    match l with
    | 0 => fresh "http://other.com/y" "other.com"
    | 1 => fresh "http://third.org/z" "third.org"
    | _ => fresh "" ""
    end.


Definition art (title u : string) (ls : list loc) (d : Time) : article.t loc :=
  article.mk 0 title u ls "Example" d.

Definition a1 := art "links 3" "http://example.com/p3" [0; 1] 3%Z.
Definition a2 := art "links 1" "http://example.com/p1" [] 1%Z.
Definition a3 := art "old links" "http://example.com/old" [1] 0%Z.
Definition a4 := art "links 2" "http://example.com/p2" [1] 2%Z.

Definition batch : list (article.t loc) := [a1; a2; a3; a4].

(** Seven articles: six of one date, in this order, then an older one. *)
Definition t1 := art "first" "http://example.com/t1" [] 5%Z.
Definition t2 := art "second" "http://example.com/t2" [] 5%Z.
Definition t3 := art "third" "http://example.com/t3" [] 5%Z.
Definition t4 := art "fourth" "http://example.com/t4" [] 5%Z.
Definition t5 := art "fifth" "http://example.com/t5" [] 5%Z.
Definition t6 := art "sixth" "http://example.com/t6" [] 5%Z.
Definition t7 := art "oldest" "http://example.com/t7" [] 4%Z.

Definition ties : list (article.t loc) := [t1; t2; t3; t4; t5; t6; t7].

(** A pointer structure: an anchor at 1 with two text children at 2, 3. *)
Definition nodes : mem :=
  fun p =>
    match p with
    | 1 => mkHtmlNode ElementNode atom_A "a"
             [mkAttribute "" "href" "http://other.com/y"] (Some 2) None
    | 2 => mkHtmlNode TextNode 0%N "see" [] None (Some 3)
    | _ => mkHtmlNode TextNode 0%N "this" [] None None
    end.

Definition nodes_tree : Node :=
  node_at nodes 1 [node_at nodes 2 []; node_at nodes 3 []].

End Sample.

Module SampleRuns.

Definition app0 : app := mkApp Sample.db Sample.batch.

(** What [articles] returns for [app0]: the dismissed article is gone and
    the rest is ordered by date. *)
Definition out0 : list (article.t loc) := [Sample.a2; Sample.a4; Sample.a1].


Definition app_ties : app := mkApp Sample.empty_db Sample.ties.

Definition app_broken : app := mkApp Sample.broken_db Sample.batch.

End SampleRuns.

(** ** The rest of the program: the database, the marks, refreshFeeds *)

(** The gorp [DbMap] of [newLinkStore]: the table "articles" of
    [articleState] rows and the table "links" of [linkState] rows, both keyed
    by an auto-incremented [ID], rows in insertion order. *)
Record DbMap : Type := mkDbMap {
  articles_rows : list articleState.t;
  links_rows : list linkState.t
}.

(** The key an auto-increment column gives the next row. *)
Definition next_ID (ids : list Z) : Z := (1 + fold_right Z.max 0 ids)%Z.

(** [db.SelectOne(&holder, `SELECT * FROM articles WHERE url=? LIMIT 1`, url)]:
    the first row with that url, [sql.ErrNoRows] when there is none (the
    not-found error [articles] tests for), or the error [fault] of a database
    that cannot answer. *)
Definition SelectOne_article (fault : option error) (db : DbMap) (url : string)
  : articleState.t + error :=
  match fault with
  | Some e => inr e
  | None =>
      match find (fun r => String.eqb (articleState.URL r) url)
              (articles_rows db) with
      | Some r => inl r
      | None => inr ErrNoRows
      end
  end.

Definition SelectOne_link (fault : option error) (db : DbMap) (url : string)
  : linkState.t + error :=
  match fault with
  | Some e => inr e
  | None =>
      match find (fun r => String.eqb (linkState.URL r) url) (links_rows db) with
      | Some r => inl r
      | None => inr ErrNoRows
      end
  end.

(** [db.Insert(&row)]: the row is appended under a fresh key, or the
    database reports [fault] and keeps its rows. *)
Definition Insert_article (fault : option error) (db : DbMap)
  (row : articleState.t) : DbMap * option error :=
  match fault with
  | Some e => (db, Some e)
  | None =>
      (mkDbMap
         (articles_rows db ++
          [articleState.mk (next_ID (map articleState.ID (articles_rows db)))
             (articleState.URL row) (articleState.DismissedAt row)])
         (links_rows db),
       None)
  end.

Definition Insert_link (fault : option error) (db : DbMap) (row : linkState.t)
  : DbMap * option error :=
  match fault with
  | Some e => (db, Some e)
  | None =>
      (mkDbMap (articles_rows db)
         (links_rows db ++
          [linkState.mk (next_ID (map linkState.ID (links_rows db)))
             (linkState.URL row) (linkState.ArticleURL row)
             (linkState.QueuedAt row)]),
       None)
  end.

(** The [linkStore] over a database; [fa] and [fl] tell which lookups the
    database cannot answer, and with what error. *)
Definition store_of (fa fl : string -> option error) (db : DbMap) : linkStore :=
  mkLinkStore (fun u => SelectOne_article (fa u) db u)
              (fun u => SelectOne_link (fl u) db u).

Definition no_fault : string -> option error := fun _ => None.

(** [markArticleDismissed] and [markLinkQueued]; [now] is [time.Now()], and
    [log.Println] writes to the log only. *)
Definition markArticleDismissed (fault : option error) (now : Time)
  (db : DbMap) (url : string) : DbMap * option error :=
  Insert_article fault db (articleState.mk 0 url now).

Definition markLinkQueued (fault : option error) (now : Time) (db : DbMap)
  (url : string) : DbMap * option error :=
  Insert_link fault db (linkState.mk 0 url "" now).

(** [&link{...}]: each link of a fetched batch is a location of its own,
    taken from [next] on; locations below [next] are the links made before. *)
Fixpoint alloc_links (ls : list link.t) (next : loc) (h : heap)
  : list loc * loc * heap :=
  match ls with
  | [] => ([], next, h)
  | l :: rest =>
      let '(ps, next', h') := alloc_links rest (S next) (heap_set h next l) in
      (next :: ps, next', h')
  end.

Fixpoint publish (fetched : list (article.t link.t)) (next : loc) (h : heap)
  : list (article.t loc) * loc * heap :=
  match fetched with
  | [] => ([], next, h)
  | a :: rest =>
      let '(ps, next1, h1) := alloc_links (article.Links a) next h in
      let '(rest', next2, h2) := publish rest next1 h1 in
      (article.mk (article.ID a) (article.Title a) (article.URL a) ps
         (article.Feed a) (article.Date a) :: rest', next2, h2)
  end.

(** The running program: the database behind [a.store], [a.lastFetch], and
    the links in memory. *)
Record server : Type := mkServer {
  srv_db : DbMap;
  srv_lastFetch : list (article.t loc);
  srv_mem : heap;
  srv_next : loc
}.

Definition app_of (fa fl : string -> option error) (srv : server) : app :=
  mkApp (store_of fa fl (srv_db srv)) (srv_lastFetch srv).

Definition feed_urlstr : string :=
  "http://feeds.feedburner.com/marginalrevolution?fmt=xml".

Section Server.
Variable ToLower : string -> string.
Variable url_Parse : string -> url.URL + error.
Variable html_Parse : string -> Node + error.
Variable sort_Sort : forall A : Type, (A -> A -> bool) -> list A -> list A.

(** [refreshFeeds]; [rss_Fetch] is what the network answers this time. *)
Definition refreshFeeds (rss_Fetch : string -> rss.Feed.t + error)
  (srv : server) : server * option error :=
  match fetch ToLower url_Parse html_Parse rss_Fetch feed_urlstr with
  | inr err => (srv, Some err)
  | inl fetched =>
      let '(batch, next', h') := publish fetched (srv_next srv) (srv_mem srv) in
      (mkServer (srv_db srv) batch h' next', None)
  end.

(** [a.articles()] on the running program. *)
Definition run_articles (fa fl : string -> option error) (srv : server)
  : (list (article.t loc) + error) * server :=
  let (r, h') := articles sort_Sort (app_of fa fl srv) (srv_mem srv) in
  (r, mkServer (srv_db srv) (srv_lastFetch srv) h' (srv_next srv)).

(** The states the program passes through, one call after another: it starts
    on any database with no batch fetched; then feeds are refreshed, articles
    are listed, links are marked queued and articles dismissed, in any order
    and with any database faults. *)
Inductive reachable : server -> Prop :=
| reach_start db h next : reachable (mkServer db [] h next)
| reach_refresh srv rss_Fetch :
    reachable srv -> reachable (fst (refreshFeeds rss_Fetch srv))
| reach_articles srv fa fl :
    reachable srv -> reachable (snd (run_articles fa fl srv))
| reach_queued srv fault now url :
    reachable srv ->
    reachable (mkServer (fst (markLinkQueued fault now (srv_db srv) url))
                 (srv_lastFetch srv) (srv_mem srv) (srv_next srv))
| reach_dismissed srv fault now url :
    reachable srv ->
    reachable (mkServer (fst (markArticleDismissed fault now (srv_db srv) url))
                 (srv_lastFetch srv) (srv_mem srv) (srv_next srv)).

End Server.

(** The fetched article a published one stands for. *)
Definition deref (h : heap) (a : article.t loc) : article.t link.t :=
  article.mk (article.ID a) (article.Title a) (article.URL a)
    (map h (article.Links a)) (article.Feed a) (article.Date a).

Definition batch_links (batch : list (article.t loc)) : list loc :=
  flat_map (@article.Links loc) batch.

Definition fetched_links (fetched : list (article.t link.t)) : list link.t :=
  flat_map (@article.Links link.t) fetched.

(** The arguments of the calls [visit(n)] with a node, and the number of
    calls [visit(nil)], in a trace. *)
Definition entered {V : Type} (tr : list (V * option Node)) : list Node :=
  flat_map (fun c => match snd c with Some n => [n] | None => [] end) tr.

Definition exits {V : Type} (tr : list (V * option Node)) : nat :=
  List.length (filter (fun c => match snd c with Some _ => false | None => true end) tr).


Section FetchedSpec.
Variable ToLower : string -> string.
Variable url_Parse : string -> url.URL + error.
Variable html_Parse : string -> Node + error.

(** What holds of an Article assembled from the items of [feed]. *)
Definition assembled_from (feed : rss.Feed.t) (feedurl : url.URL)
  (a : article.t link.t) : Prop :=
  Contains (ToLower (article.Title a)) "link" = true /\
  article.Feed a = rss.Feed.Title feed /\
  (exists item,
      In item (rss.Feed.Items feed) /\
      article.Title a = rss.Item.Title item /\
      article.URL a = rss.Item.Link item /\
      article.Date a = rss.Item.Date item /\
      extracted ToLower url_Parse html_Parse item <> []) /\
  Forall (fun l => link.Domain l <> url.Host feedurl /\
                   link.URL l <> "" /\ unqueued l)
    (article.Links a).

End FetchedSpec.

(** Every Queued flag on a link of the batch is backed by a row of the links
    table for that link's URL. *)
Definition flags_backed (srv : server) : Prop :=
  forall a l,
    In a (srv_lastFetch srv) -> In l (article.Links a) ->
    link.Queued (srv_mem srv l) = true ->
    exists r,
      SelectOne_link None (srv_db srv) (link.URL (srv_mem srv l)) = inl r.


Module MoreSamples.

(** A database with one dismissal and one queued link. *)
Definition tables : DbMap :=
  mkDbMap [articleState.mk 1 "http://example.com/old" 100%Z]
          [linkState.mk 1 "http://other.com/y" "" 42%Z].

(** The network answers with the sample feed. *)
Definition rss_Fetch (urlstr : string) : rss.Feed.t + error := inl Sample.feed.

(** The program started on [tables], after one refresh. *)
Definition started : server := mkServer tables [] Sample.mem0 0.

Definition refreshed : server :=
  fst (refreshFeeds Sample.ToLower Sample.url_Parse Sample.html_Parse
         rss_Fetch started).

Definition listed : list (article.t loc) :=
  [article.mk 0 "Assorted Links" "http://example.com/post1" [0] "Example" 3%Z].

End MoreSamples.


Module CyclicSample.

(** A node that is its own first child. *)
Definition looped : mem :=
  fun _ => mkHtmlNode ElementNode 0%N "div" [] (Some 0) None.

End CyclicSample.


(** * Properties *)

(** ** Induction on finite trees *)

Lemma Node_ind (P : Node -> Prop) :
  (forall t a d ats cs, Forall P cs -> P (mkNode t a d ats cs)) ->
  forall n, P n.
Proof.
  intros IH.
  fix rec 1.
  intros [t a d ats cs].
  apply IH.
  induction cs as [|c cs IHcs]; constructor; [apply rec | exact IHcs].
Qed.

(** ** walkHTML *)

Section WalkFacts.
Context {V S : Type} {VS : visitor V S}.

Lemma walkHTML_unfold (n : Node) (v : V) (s : S) :
  walkHTML n v s =
  match visit v (Some n) s with
  | (None, s1) => s1
  | (Some vv, s1) => snd (visit v None (walkChildren (children n) vv s1))
  end.
Proof.
  destruct n as [t a d ats cs]; simpl.
  destruct (visit v (Some (mkNode t a d ats cs)) s) as [[vv|] s1]; [|reflexivity].
  f_equal. f_equal.
  generalize s1. induction cs as [|c cs IHcs]; intros s0; simpl.
  - reflexivity.
  - apply IHcs.
Qed.

End WalkFacts.

Section TraceFacts.
Context {V S : Type} {VS : visitor V S}.

Lemma traced_visit (v : V) (n : option Node) (s : S)
  (log : list (V * option Node)) :
  visit (visitor := traced VS) v n (s, log) =
  (fst (visit v n s), (snd (visit v n s), log ++ [(v, n)])).
Proof.
  unfold visit at 1, traced; simpl.
  destruct (visit v n s); reflexivity.
Qed.

Lemma traced_walkHTML (n : Node) :
  forall (v : V) (s : S) (log : list (V * option Node)),
    walkHTML (VS := traced VS) n v (s, log) =
    (walkHTML n v s, log ++ trace_of n v s).
Proof.
  induction n as [t a d ats cs IH] using Node_ind.
  assert (Hcs : forall vv s log,
             walkChildren (VS := traced VS) cs vv (s, log) =
             (walkChildren cs vv s, log ++ trace_children cs vv s)).
  { induction IH as [|c cs Hc _ IHcs]; intros vv s log; simpl.
    - now rewrite app_nil_r.
    - rewrite Hc, IHcs, app_assoc. reflexivity. }
  intros v s log.
  unfold trace_of.
  rewrite !(walkHTML_unfold (VS := traced VS)), (walkHTML_unfold (VS := VS)).
  rewrite !traced_visit.
  destruct (visit v (Some (mkNode t a d ats cs)) s) as [[vv|] s1]; simpl.
  - rewrite !Hcs, !traced_visit; simpl.
    now rewrite <- !app_assoc.
  - reflexivity.
Qed.

Lemma traced_walkChildren (cs : list Node) :
  forall (vv : V) (s : S) (log : list (V * option Node)),
    walkChildren (VS := traced VS) cs vv (s, log) =
    (walkChildren cs vv s, log ++ trace_children cs vv s).
Proof.
  induction cs as [|c cs IH]; intros vv s log; simpl.
  - now rewrite app_nil_r.
  - rewrite traced_walkHTML, IH, app_assoc. reflexivity.
Qed.

(** C8. [walkHTML root v] first calls [v.visit(root)].  If that returns no
    successor, this is the only call made and the state is the one it left:
    no child is visited and there is no exit call.  Otherwise the children of
    [root] are walked in document order with the returned successor, each
    from the state its predecessor left, and then [visit(nil)] is called
    exactly once more on the original [v]; the walk ends in the state that
    call leaves. *)
Theorem walkHTML_protocol (root : Node) (v : V) (s : S) :
  match visit v (Some root) s with
  | (None, s1) =>
      walkHTML root v s = s1 /\
      trace_of root v s = [(v, Some root)]
  | (Some vv, s1) =>
      walkHTML root v s =
        snd (visit v None (walkChildren (children root) vv s1)) /\
      trace_of root v s =
        (v, Some root) :: trace_children (children root) vv s1 ++ [(v, None)]
  end.
Proof.
  pose proof (walkHTML_unfold root v s) as Hw.
  unfold trace_of.
  rewrite (walkHTML_unfold (VS := traced VS)), traced_visit.
  destruct (visit v (Some root) s) as [[vv|] s1]; simpl.
  - split; [exact Hw|].
    now rewrite traced_walkChildren, traced_visit.
  - split; [exact Hw|reflexivity].
Qed.

End TraceFacts.

(** ** flatten *)

Lemma string_app_assoc (a b c : string) : ((a ++ b) ++ c = a ++ (b ++ c))%string.
Proof. induction a as [|ch a IH]; simpl; [reflexivity|now rewrite IH]. Qed.

Lemma string_app_nil_r (a : string) : (a ++ "" = a)%string.
Proof. induction a as [|ch a IH]; simpl; [reflexivity|now rewrite IH]. Qed.

Lemma concat_strings_app (l1 l2 : list string) :
  concat_strings (l1 ++ l2) = (concat_strings l1 ++ concat_strings l2)%string.
Proof.
  induction l1 as [|x l1 IH]; simpl; [reflexivity|].
  unfold concat_strings in *; simpl. now rewrite IH, string_app_assoc.
Qed.

Lemma texts_of_app (l1 l2 : list Node) :
  texts_of (l1 ++ l2) = (texts_of l1 ++ texts_of l2)%string.
Proof. unfold texts_of. now rewrite filter_app, map_app, concat_strings_app. Qed.

Lemma flatten_walk (n : Node) :
  forall s : flattenVisitor,
    walkHTML n tt s = mkFlattenVisitor (out s ++ subtree_text n).
Proof.
  induction n as [t a d ats cs IH] using Node_ind.
  assert (Hcs : forall s : flattenVisitor,
             walkChildren cs tt s =
             mkFlattenVisitor (out s ++ texts_of (flat_map preorder cs))).
  { induction IH as [|c cs Hc _ IHcs]; intros s; simpl.
    - destruct s; simpl. now rewrite string_app_nil_r.
    - rewrite Hc, IHcs; simpl.
      now rewrite texts_of_app, string_app_assoc. }
  intros s. rewrite walkHTML_unfold.
  unfold visit at 1, flattenVisitor_visit.
  unfold subtree_text.
  change (preorder (mkNode t a d ats cs))
    with ([mkNode t a d ats cs] ++ flat_map preorder cs).
  rewrite texts_of_app.
  unfold texts_of at 1; simpl filter; unfold is_text; simpl Type_; simpl children.
  destruct (NodeType_eqb t TextNode); rewrite Hcs; simpl.
  - now rewrite string_app_nil_r, !string_app_assoc.
  - reflexivity.
Qed.

Lemma flatten_subtree_text (n : Node) : flatten n = subtree_text n.
Proof. unfold flatten. now rewrite flatten_walk. Qed.

(** ** linkVisitor and findLinks *)

Section ExtractionFacts.
Variable ToLower : string -> string.
Variable url_Parse : string -> url.URL + error.
Variable html_Parse : string -> Node + error.

#[local] Abbreviation link_visit := (linkVisitor_visit ToLower url_Parse).
#[local] Abbreviation valid := (valid_anchor ToLower url_Parse).
#[local] Abbreviation link_of := (link_at ToLower url_Parse).

Lemma linkVisitor_visit_node (n : Node) (s : linkVisitor) :
  visit (visitor := link_visit) tt (Some n) s =
  (Some tt,
   mkLinkVisitor (parent s)
     (links s ++ map link_of (filter valid [n]))).
Proof.
  unfold visit, linkVisitor_visit, valid_anchor, is_anchor.
  simpl filter. cbv zeta.
  destruct (NodeType_eqb (Type_ n) ElementNode && N.eqb (DataAtom n) atom_A);
    cbn [andb negb]; [|destruct s; simpl; now rewrite app_nil_r].
  destruct (String.eqb (attr ToLower n "href") ""); cbn [andb negb];
    [destruct s; simpl; now rewrite app_nil_r|].
  destruct (url_Parse (attr ToLower n "href")) as [u|e] eqn:E; cbn [map];
    [|destruct s; simpl; now rewrite app_nil_r].
  unfold link_at, parsed_host. now rewrite E.
Qed.

Lemma linkVisitor_walk (root : Node) :
  forall s : linkVisitor,
    walkHTML (VS := link_visit) root tt s =
    mkLinkVisitor (parent s)
      (links s ++ map link_of (filter valid (preorder root))).
Proof.
  induction root as [t a d ats cs IH] using Node_ind.
  assert (Hcs : forall s : linkVisitor,
             walkChildren (VS := link_visit) cs tt s =
             mkLinkVisitor (parent s)
               (links s ++ map link_of (filter valid (flat_map preorder cs)))).
  { induction IH as [|c cs Hc _ IHcs]; intros s; simpl flat_map.
    - destruct s; simpl. now rewrite app_nil_r.
    - simpl walkChildren. rewrite Hc, IHcs; simpl.
      now rewrite filter_app, map_app, app_assoc. }
  intros s. rewrite walkHTML_unfold, linkVisitor_visit_node.
  simpl children. rewrite Hcs. simpl parent; simpl links.
  change (preorder (mkNode t a d ats cs))
    with ([mkNode t a d ats cs] ++ flat_map preorder cs).
  rewrite filter_app, map_app, app_assoc. reflexivity.
Qed.

(** C1. [attr] returns the value of the first attribute whose lower-cased
    key is the name asked for, and the empty string when there is none.
    Walking a parsed tree with the link visitor appends, in document order,
    exactly one Link for each anchor element whose href is not empty and
    parses as a URL, and nothing for any other node, whatever the other
    anchors are; that Link's URL is the raw attribute value and its Domain
    the host of the parsed URL.  [findLinks] returns these links for the
    parsed document, and the parser's error when parsing fails. *)
Theorem findLinks_one_link_per_valid_anchor :
  (forall (n : Node) (name : string),
      attr ToLower n name =
      match find (fun a => String.eqb (ToLower (Key a)) name) (Attr n) with
      | Some a => Val a
      | None => ""
      end) /\
  (forall (root : Node) (s : linkVisitor),
      links (walkHTML (VS := link_visit) root tt s) =
      links s ++ map link_of (filter valid (preorder root))) /\
  (forall n : Node,
      link.URL (link_of n) = attr ToLower n "href" /\
      match url_Parse (attr ToLower n "href") with
      | inl u => link.Domain (link_of n) = url.Host u
      | inr _ => valid n = false
      end) /\
  (forall s : string,
      findLinks ToLower url_Parse html_Parse s =
      match html_Parse s with
      | inl root => (map link_of (filter valid (preorder root)), None)
      | inr err => ([], Some err)
      end).
Proof.
  split; [|split; [|split]].
  - intros n name. unfold attr.
    induction (Attr n) as [|a ats IH]; simpl; [reflexivity|].
    destruct (String.eqb (ToLower (Key a)) name); [reflexivity|exact IH].
  - intros root s. now rewrite linkVisitor_walk.
  - intros n. split; [reflexivity|].
    unfold link_at, parsed_host, valid_anchor; simpl.
    destruct (url_Parse (attr ToLower n "href")); [reflexivity|].
    now rewrite andb_false_r.
  - intros s. unfold findLinks.
    destruct (html_Parse s) as [root|err]; [|reflexivity].
    now rewrite linkVisitor_walk.
Qed.

(** C7. [flatten] of a node is the raw content of every text node of its
    subtree, in document order, each followed by one space, with nothing
    trimmed or merged; and the Context of the Link extracted for an anchor is
    that text of the anchor's subtree. *)
Theorem link_Context_is_subtree_text :
  (forall n : Node, flatten n = subtree_text n) /\
  (forall (root : Node) (s : linkVisitor),
      map link.Context (links (walkHTML (VS := link_visit) root tt s)) =
      map link.Context (links s) ++
      map subtree_text (filter valid (preorder root))).
Proof.
  split; [exact flatten_subtree_text|].
  intros root s. rewrite linkVisitor_walk; simpl links.
  rewrite map_app, map_map. f_equal.
  apply map_ext. intros n. unfold link_at; simpl. apply flatten_subtree_text.
Qed.

Lemma findLinks_Forall (P : link.t -> Prop) :
  (forall n, P (link_of n)) ->
  forall s, Forall P (fst (findLinks ToLower url_Parse html_Parse s)).
Proof.
  intros HP s. unfold findLinks.
  destruct (html_Parse s) as [root|err]; simpl; [|constructor].
  rewrite linkVisitor_walk; simpl.
  apply Forall_forall. intros l Hl.
  apply in_map_iff in Hl as [n [<- _]]. apply HP.
Qed.

(** C9. Every Link the link visitor adds, and so every Link [findLinks]
    returns, has Queued false and the zero QueuedAt. *)
Theorem extracted_links_unqueued :
  (forall (root : Node) (s : linkVisitor),
      exists new : list link.t,
        links (walkHTML (VS := link_visit) root tt s) = links s ++ new /\
        Forall unqueued new) /\
  (forall s : string,
      Forall unqueued (fst (findLinks ToLower url_Parse html_Parse s))).
Proof.
  split.
  - intros root s. eexists. split; [now rewrite linkVisitor_walk|].
    apply Forall_forall. intros l Hl.
    apply in_map_iff in Hl as [n [<- _]]. split; reflexivity.
  - apply findLinks_Forall. intros n; split; reflexivity.
Qed.

End ExtractionFacts.

(** ** fetch *)

Section FetchFacts.
Variable ToLower : string -> string.
Variable url_Parse : string -> url.URL + error.
Variable html_Parse : string -> Node + error.
Variable rss_Fetch : string -> rss.Feed.t + error.

#[local] Abbreviation find_links := (findLinks ToLower url_Parse html_Parse).
#[local] Abbreviation assemble_item := (assemble ToLower url_Parse html_Parse).

Lemma findLinks_reparses (s : string) :
  Forall (reparses url_Parse) (fst (find_links s)).
Proof.
  unfold findLinks.
  destruct (html_Parse s) as [root|err]; simpl; [|constructor].
  rewrite linkVisitor_walk; simpl.
  apply Forall_forall. intros l Hl.
  apply in_map_iff in Hl as [n [<- Hn]].
  apply filter_In in Hn as [_ Hn].
  unfold valid_anchor in Hn. unfold reparses, link_at, parsed_host; simpl.
  destruct (url_Parse (attr ToLower n "href")) as [u|e].
  - now exists u.
  - now rewrite andb_false_r in Hn.
Qed.

Lemma fetch_filter_outbound (feedurl : url.URL) (ls : list link.t) :
  Forall (reparses url_Parse) ls ->
  forall filtered,
    fetch_filter url_Parse feedurl ls filtered =
    filtered ++ filter (outbound (url.Host feedurl)) ls.
Proof.
  induction 1 as [|l ls [u [Hu Hh]] _ IH]; intros filtered; simpl.
  - now rewrite app_nil_r.
  - rewrite Hu. unfold outbound at 1. rewrite <- Hh.
    destruct (String.eqb (url.Host u) (url.Host feedurl)); simpl.
    + apply IH.
    + rewrite IH, <- app_assoc. reflexivity.
Qed.

Lemma fetch_items_assemble (feed : rss.Feed.t) (feedurl : url.URL)
  (items : list rss.Item.t) :
  forall all,
    fetch_items ToLower url_Parse html_Parse feed feedurl items all =
    all ++ flat_map (assemble_item feed feedurl) items.
Proof.
  induction items as [|item items IH]; intros all; simpl.
  - now rewrite app_nil_r.
  - unfold assemble at 1, passes_title, extracted.
    destruct (Contains (ToLower (rss.Item.Title item)) "link"); simpl;
      [|apply IH].
    pose proof (findLinks_reparses (rss.Item.Content item)) as Hre.
    destruct (find_links (rss.Item.Content item)) as [ls err]; simpl in *.
    rewrite (fetch_filter_outbound feedurl Hre); simpl.
    destruct ls as [|l ls]; simpl; [apply IH|].
    rewrite IH, <- app_assoc. reflexivity.
Qed.

(** C2. The batch [fetch] builds is, item by item and in feed order, what the
    assembler of the specification gives: an item that passes the title
    filter contributes one Article exactly when the unfiltered extraction
    from its content is not empty, and that Article's Links are the extracted
    links whose host differs from the feed's host, in order (possibly none);
    any other item contributes nothing. *)
Theorem fetch_assembles_articles :
  (forall feed feedurl items all,
      fetch_items ToLower url_Parse html_Parse feed feedurl items all =
      all ++ flat_map (assemble_item feed feedurl) items) /\
  (forall urlstr,
      fetch ToLower url_Parse html_Parse rss_Fetch urlstr =
      match rss_Fetch urlstr with
      | inr err => inr err
      | inl feed =>
          match url_Parse (rss.Feed.Link feed) with
          | inr err => inr err
          | inl feedurl =>
              inl (flat_map (assemble_item feed feedurl) (rss.Feed.Items feed))
          end
      end) /\
  (forall feed feedurl item,
      match passes_title ToLower item,
            extracted ToLower url_Parse html_Parse item with
      | true, [] => assemble_item feed feedurl item = []
      | true, l :: ls =>
          exists a,
            assemble_item feed feedurl item = [a] /\
            article.Title a = rss.Item.Title item /\
            article.URL a = rss.Item.Link item /\
            article.Feed a = rss.Feed.Title feed /\
            article.Date a = rss.Item.Date item /\
            article.Links a =
              filter (fun x => negb (String.eqb (link.Domain x)
                                       (url.Host feedurl))) (l :: ls)
      | false, _ => assemble_item feed feedurl item = []
      end).
Proof.
  split; [|split].
  - intros. apply fetch_items_assemble.
  - intros urlstr. unfold fetch.
    destruct (rss_Fetch urlstr) as [feed|err]; [|reflexivity].
    destruct (url_Parse (rss.Feed.Link feed)) as [feedurl|err]; [|reflexivity].
    now rewrite fetch_items_assemble.
  - intros feed feedurl item. unfold assemble.
    destruct (passes_title ToLower item); [|reflexivity].
    destruct (extracted ToLower url_Parse html_Parse item) as [|l ls];
      [reflexivity|].
    eexists. split; [reflexivity|]. repeat split.
Qed.

End FetchFacts.

(** ** sort.Sort: the contract and a sort that meets it *)

Lemma byDate_Less_strict_weak_order : strict_weak_order byDate_Less.
Proof.
  unfold strict_weak_order, byDate_Less, Before.
  repeat split; intros;
    repeat match goal with
           | H : (_ <? _)%Z = true |- _ => apply Z.ltb_lt in H
           | H : (_ <? _)%Z = false |- _ => apply Z.ltb_ge in H
           | |- (_ <? _)%Z = true => apply Z.ltb_lt
           | |- (_ <? _)%Z = false => apply Z.ltb_ge
           end; lia.
Qed.

Section InsertionSort.
Context {A : Type} (less : A -> A -> bool).
Hypothesis Hswo : strict_weak_order less.

Lemma insert_after_perm (x : A) (l : list A) :
  Permutation (insert_after less x l) (x :: l).
Proof.
  induction l as [|y l IH]; simpl; [reflexivity|].
  destruct (less x y); [reflexivity|].
  rewrite IH. apply perm_swap.
Qed.

Lemma less_asym (x y : A) : less x y = true -> less y x = false.
Proof.
  destruct Hswo as [Hirr [Htr _]]. intros Hxy.
  destruct (less y x) eqn:Hyx; [|reflexivity].
  rewrite <- (Hirr x). symmetry. now apply Htr with y.
Qed.

Lemma insert_after_sorted (x : A) (l : list A) :
  IsSorted less l -> IsSorted less (insert_after less x l).
Proof.
  unfold IsSorted.
  induction l as [|y l IH]; intros Hs; simpl.
  - repeat constructor.
  - inversion Hs as [|? ? Hs' Hhd]; subst.
    destruct (less x y) eqn:Hxy.
    + constructor; [exact Hs|]. constructor. now apply less_asym.
    + constructor; [now apply IH|].
      destruct l as [|z l]; simpl.
      * now constructor.
      * destruct (less x z); constructor; [exact Hxy|].
        now inversion Hhd.
Qed.

Lemma insertionSort_acc (l : list A) :
  forall sorted : list A,
    IsSorted less sorted ->
    Permutation
      (fold_left (fun sorted x => insert_after less x sorted) l sorted)
      (sorted ++ l) /\
    IsSorted less
      (fold_left (fun sorted x => insert_after less x sorted) l sorted).
Proof.
  induction l as [|x l IH]; intros sorted Hs; simpl.
  - rewrite app_nil_r. split; [reflexivity|exact Hs].
  - destruct (IH (insert_after less x sorted)) as [Hp Hs'];
      [now apply insert_after_sorted|].
    split; [|exact Hs'].
    rewrite Hp, insert_after_perm. apply Permutation_middle.
Qed.

End InsertionSort.

Lemma update_perm {A : Type} (l : list A) :
  forall (k : nat) (x y : A),
    nth_error l k = Some y ->
    Permutation (y :: update l k x) (x :: l).
Proof.
  induction l as [|b l IH]; intros [|k] x y Hk; simpl in *; try discriminate.
  - injection Hk as ->. apply perm_swap.
  - rewrite perm_swap, (IH k x y Hk). apply perm_swap.
Qed.

Lemma Swap_perm {A : Type} (l : list A) :
  forall i j : nat, Permutation (Swap l i j) l.
Proof.
  unfold Swap.
  induction l as [|a l IH]; intros i j.
  - destruct i, j; reflexivity.
  - destruct i as [|i], j as [|j]; simpl.
    + reflexivity.
    + destruct (nth_error l j) as [y|] eqn:Hj; [|reflexivity].
      now apply update_perm.
    + destruct (nth_error l i) as [x|] eqn:Hi; [|reflexivity].
      now apply update_perm.
    + specialize (IH i j).
      destruct (nth_error l i) as [x|]; [|reflexivity].
      destruct (nth_error l j) as [y|]; [|reflexivity].
      now constructor.
Qed.

Lemma shell_pass_perm {A : Type} (less : A -> A -> bool) (steps : nat) :
  forall (i : nat) (l : list A), Permutation (shell_pass less steps i l) l.
Proof.
  induction steps as [|steps IH]; intros i l; simpl; [reflexivity|].
  rewrite IH. destruct (Less_at less l i (i - 6)); [apply Swap_perm|reflexivity].
Qed.

Lemma small_Sort_contract : sort_contract small_Sort.
Proof.
  intros A less Hswo l. unfold small_Sort, insertionSort.
  destruct (insertionSort_acc Hswo
              (shell_pass less (List.length l - 6) 6 l) (sorted := []))
    as [Hp Hs]; [constructor|].
  split; [|exact Hs].
  rewrite Hp. simpl. apply shell_pass_perm.
Qed.

(** ** app.articles *)

Lemma find_app {A : Type} (f : A -> bool) (l1 l2 : list A) :
  find f (l1 ++ l2) =
  match find f l1 with
  | Some x => Some x
  | None => find f l2
  end.
Proof.
  induction l1 as [|x l1 IH]; simpl; [reflexivity|].
  destruct (f x); [reflexivity|exact IH].
Qed.

Lemma find_map {A B : Type} (f : B -> bool) (g : A -> B) (l : list A) :
  find f (map g l) = option_map g (find (fun x => f (g x)) l).
Proof.
  induction l as [|x l IH]; simpl; [reflexivity|].
  destruct (f (g x)); [reflexivity|exact IH].
Qed.

Section ReconcileFacts.
Variable s : linkStore.

Lemma same_identity_refl (x : link.t) : same_identity x x.
Proof. repeat split. Qed.

Lemma same_identity_trans (x y z : link.t) :
  same_identity x y -> same_identity y z -> same_identity x z.
Proof.
  unfold same_identity. intros (?&?&?&?) (?&?&?&?).
  repeat split; congruence.
Qed.

Lemma link_step_refl (x : link.t) : link_step s x x.
Proof.
  split; [apply same_identity_refl|].
  destruct (fst (findLink s (link.URL x))); auto.
Qed.

Lemma link_step_trans (x y z : link.t) :
  link_step s x y -> link_step s y z -> link_step s x z.
Proof.
  intros [Hxy Sxy] [Hyz Syz].
  split; [now apply same_identity_trans with y|].
  assert (Hurl : link.URL y = link.URL x) by apply Hxy.
  rewrite Hurl in Syz.
  destruct (fst (findLink s (link.URL x))) as [st|].
  - destruct Syz as [->|Hq]; [exact Sxy|now right].
  - now rewrite Syz.
Qed.

Lemma findLink_found (u : string) (st : linkState.t) :
  SelectOne_links s u = inl st -> findLink s u = (Some st, None).
Proof. unfold findLink. now intros ->. Qed.

Lemma findLink_error (u : string) (e : error) :
  SelectOne_links s u = inr e -> findLink s u = (None, Some e).
Proof. unfold findLink. now intros ->. Qed.

Lemma mark_queued_same (h : heap) (l : loc) (st : linkState.t) :
  queued_from st (mark_queued h l st l) /\
  same_identity (h l) (mark_queued h l st l).
Proof.
  unfold mark_queued, heap_set. rewrite Nat.eqb_refl.
  repeat split.
Qed.

Lemma mark_queued_other (h : heap) (l l' : loc) (st : linkState.t) :
  l' <> l -> mark_queued h l st l' = h l'.
Proof.
  intros Hne. unfold mark_queued, heap_set.
  destruct (Nat.eqb_spec l' l); [contradiction|reflexivity].
Qed.

Lemma mark_queued_step (h : heap) (l : loc) (st : linkState.t) :
  SelectOne_links s (link.URL (h l)) = inl st ->
  forall l', link_step s (h l') (mark_queued h l st l').
Proof.
  intros Hst l'.
  destruct (Nat.eq_dec l' l) as [->|Hne].
  - destruct (mark_queued_same h l st) as [Hq Hid].
    split; [exact Hid|].
    rewrite (findLink_found _ Hst); simpl. now right.
  - rewrite mark_queued_other by assumption. apply link_step_refl.
Qed.

Lemma mark_queued_URL (h : heap) (l : loc) (st : linkState.t) (l' : loc) :
  link.URL (mark_queued h l st l') = link.URL (h l').
Proof.
  destruct (Nat.eq_dec l' l) as [->|Hne].
  - apply (mark_queued_same h l st).
  - now rewrite mark_queued_other.
Qed.

(** One iteration of the loop over the links of an article. *)
Lemma articles_links_cons (aurl : string) (l : loc) (rest : list loc) (h : heap) :
  articles_links s aurl (l :: rest) h =
  match SelectOne_links s (link.URL (h l)) with
  | inl st => articles_links s aurl rest (mark_queued h l st)
  | inr e =>
      if is_ErrNoRows e then articles_links s aurl rest h
      else (Some (Errorf_lookup "link" aurl (Some e)), h)
  end.
Proof.
  simpl. unfold findLink.
  destruct (SelectOne_links s (link.URL (h l))) as [st|e]; simpl;
    [reflexivity|].
  destruct (is_ErrNoRows e); reflexivity.
Qed.

Lemma articles_links_step (aurl : string) (ls : list loc) :
  forall (h : heap) (l : loc),
    link_step s (h l) (snd (articles_links s aurl ls h) l).
Proof.
  induction ls as [|l0 ls IH]; intros h l.
  - apply link_step_refl.
  - rewrite articles_links_cons.
    destruct (SelectOne_links s (link.URL (h l0))) as [st|e] eqn:E.
    + apply link_step_trans with (mark_queued h l0 st l);
        [now apply mark_queued_step|apply IH].
    + destruct (is_ErrNoRows e); [apply IH|apply link_step_refl].
Qed.

Lemma articles_links_frame (aurl : string) (ls : list loc) :
  forall (h : heap) (l : loc),
    ~ In l ls -> snd (articles_links s aurl ls h) l = h l.
Proof.
  induction ls as [|l0 ls IH]; intros h l Hl; [reflexivity|].
  rewrite articles_links_cons.
  assert (Hne : l <> l0) by (intros ->; apply Hl; now left).
  assert (Hl' : ~ In l ls) by (intros Hin; apply Hl; now right).
  destruct (SelectOne_links s (link.URL (h l0))) as [st|e].
  - rewrite IH by assumption. now apply mark_queued_other.
  - destruct (is_ErrNoRows e); [now apply IH|reflexivity].
Qed.

Lemma articles_links_error (aurl : string) (ls : list loc) :
  forall h : heap,
    fst (articles_links s aurl ls h) =
    option_map
      (fun q => Errorf_lookup "link" aurl (lookup_error s q))
      (find (lookup_fails s)
         (map (fun l => LookupLink aurl (link.URL (h l))) ls)).
Proof.
  induction ls as [|l0 ls IH]; intros h; [reflexivity|].
  rewrite articles_links_cons. simpl map. simpl find.
  change (lookup_fails s (LookupLink aurl (link.URL (h l0))))
    with (lookup_failed (snd (findLink s (link.URL (h l0))))).
  destruct (SelectOne_links s (link.URL (h l0))) as [st|e] eqn:E.
  - rewrite (findLink_found _ E); simpl.
    rewrite IH. f_equal. f_equal.
    apply map_ext. intros l. now rewrite mark_queued_URL.
  - rewrite (findLink_error _ E); simpl.
    destruct (is_ErrNoRows e); simpl; [apply IH|].
    unfold lookup_error. now rewrite (findLink_error _ E).
Qed.

Lemma queued_from_stable (st : linkState.t) (x y : link.t) :
  fst (findLink s (link.URL x)) = Some st ->
  queued_from st x -> link_step s x y -> queued_from st y.
Proof.
  intros Hst Hq [_ Hstep]. rewrite Hst in Hstep.
  destruct Hstep as [->|Hq']; assumption.
Qed.

Lemma articles_links_marks (aurl : string) (ls : list loc) :
  forall h : heap,
    fst (articles_links s aurl ls h) = None ->
    forall l st,
      In l ls -> fst (findLink s (link.URL (h l))) = Some st ->
      queued_from st (snd (articles_links s aurl ls h) l).
Proof.
  induction ls as [|l0 ls IH]; intros h Hok l st Hin Hst; [contradiction|].
  rewrite articles_links_cons in *.
  destruct (SelectOne_links s (link.URL (h l0))) as [st0|e] eqn:E.
  - destruct (Nat.eq_dec l l0) as [->|Hne].
    + rewrite (findLink_found _ E) in Hst; simpl in Hst.
      injection Hst as <-.
      apply queued_from_stable with (mark_queued h l0 st0 l0).
      * now rewrite mark_queued_URL, (findLink_found _ E).
      * apply mark_queued_same.
      * apply articles_links_step.
    + destruct Hin as [->|Hin]; [contradiction|].
      apply IH; [assumption|assumption|].
      now rewrite mark_queued_URL.
  - destruct (is_ErrNoRows e); [|discriminate].
    destruct Hin as [<-|Hin].
    + rewrite (findLink_error _ E) in Hst. discriminate.
    + now apply IH.
Qed.

End ReconcileFacts.

Section ReconcileLoop.
Variable s : linkStore.

(** One iteration of the loop over the batch. *)
Lemma articles_loop_cons (a : article.t loc) (rest filtered : list (article.t loc))
  (h : heap) :
  articles_loop s (a :: rest) filtered h =
  if lookup_failed (snd (findArticle s (article.URL a)))
  then (inr (lookup_Errorf s (LookupArticle (article.URL a))), h)
  else if is_dismissed (fst (findArticle s (article.URL a)))
  then articles_loop s rest filtered h
  else
    match articles_links s (article.URL a) (article.Links a) h with
    | (Some e, h') => (inr e, h')
    | (None, h') => articles_loop s rest (filtered ++ [a]) h'
    end.
Proof.
  simpl. unfold lookup_error.
  destruct (findArticle s (article.URL a)) as [state err]; reflexivity.
Qed.

Lemma retained_cons (a : article.t loc) (rest : list (article.t loc)) :
  retained s (a :: rest) =
  if is_dismissed (fst (findArticle s (article.URL a)))
  then retained s rest else a :: retained s rest.
Proof.
  unfold retained; simpl.
  destruct (is_dismissed (fst (findArticle s (article.URL a)))); reflexivity.
Qed.

Lemma lookups_same_URL (h1 h2 : heap) (batch : list (article.t loc)) :
  (forall l, link.URL (h1 l) = link.URL (h2 l)) ->
  lookups s h1 batch = lookups s h2 batch.
Proof.
  intros Hurl. unfold lookups.
  apply flat_map_ext. intros a. unfold lookups_of. f_equal.
  destruct (is_dismissed (fst (findArticle s (article.URL a)))); [reflexivity|].
  apply map_ext. intros l. now rewrite Hurl.
Qed.

Lemma articles_links_URL (aurl : string) (ls : list loc) (h : heap) (l : loc) :
  link.URL (snd (articles_links s aurl ls h) l) = link.URL (h l).
Proof. apply (articles_links_step s aurl ls h l). Qed.

Lemma articles_loop_step (batch : list (article.t loc)) :
  forall (filtered : list (article.t loc)) (h : heap) (l : loc),
    link_step s (h l) (snd (articles_loop s batch filtered h) l).
Proof.
  induction batch as [|a rest IH]; intros filtered h l.
  - apply link_step_refl.
  - rewrite articles_loop_cons.
    destruct (lookup_failed (snd (findArticle s (article.URL a))));
      [apply link_step_refl|].
    destruct (is_dismissed (fst (findArticle s (article.URL a))));
      [apply IH|].
    pose proof (articles_links_step s (article.URL a) (article.Links a) h l)
      as Hin.
    destruct (articles_links s (article.URL a) (article.Links a) h)
      as [[e|] h']; simpl in *; [exact Hin|].
    apply link_step_trans with (h' l); [exact Hin|apply IH].
Qed.

Lemma articles_loop_frame (batch : list (article.t loc)) :
  forall (filtered : list (article.t loc)) (h : heap) (l : loc),
    snd (articles_loop s batch filtered h) l = h l \/
    exists a, In a (retained s batch) /\ In l (article.Links a).
Proof.
  induction batch as [|a rest IH]; intros filtered h l.
  - now left.
  - rewrite articles_loop_cons, retained_cons.
    destruct (lookup_failed (snd (findArticle s (article.URL a))));
      [now left|].
    destruct (is_dismissed (fst (findArticle s (article.URL a))));
      [apply IH|].
    destruct (in_dec Nat.eq_dec l (article.Links a)) as [Hin|Hnin].
    { right. exists a. split; [now left|exact Hin]. }
    pose proof (@articles_links_frame s (article.URL a) _ h l Hnin) as Hfr.
    destruct (articles_links s (article.URL a) (article.Links a) h)
      as [[e|] h']; simpl in *; [now left|].
    destruct (IH (filtered ++ [a]) h' l) as [Heq|[a' [Ha' Hl']]].
    + left. now rewrite Heq.
    + right. exists a'. split; [now right|exact Hl'].
Qed.

Lemma articles_loop_result (batch : list (article.t loc)) :
  forall (filtered : list (article.t loc)) (h : heap),
    fst (articles_loop s batch filtered h) =
    match find (lookup_fails s) (lookups s h batch) with
    | None => inl (filtered ++ retained s batch)
    | Some q => inr (lookup_Errorf s q)
    end.
Proof.
  induction batch as [|a rest IH]; intros filtered h.
  - simpl. now rewrite app_nil_r.
  - rewrite articles_loop_cons, retained_cons.
    unfold lookups; simpl flat_map; fold (lookups s h rest).
    unfold lookups_of. simpl find.
    change (lookup_fails s (LookupArticle (article.URL a)))
      with (lookup_failed (snd (findArticle s (article.URL a)))).
    destruct (lookup_failed (snd (findArticle s (article.URL a))));
      [reflexivity|].
    destruct (is_dismissed (fst (findArticle s (article.URL a))));
      [apply IH|].
    rewrite find_app.
    pose proof (articles_links_error s (article.URL a) (article.Links a) h)
      as Herr.
    pose proof (articles_links_URL (article.URL a) (article.Links a) h)
      as Hurl.
    destruct (articles_links s (article.URL a) (article.Links a) h)
      as [e h']; simpl in *.
    rewrite find_map in *.
    destruct (find
                (fun x => lookup_fails s
                            (LookupLink (article.URL a) (link.URL (h x))))
                (article.Links a)) as [l|]; simpl in *; subst e.
    + reflexivity.
    + rewrite IH, (lookups_same_URL h' h rest Hurl), <- app_assoc.
      reflexivity.
Qed.

Lemma articles_loop_marks (batch : list (article.t loc)) :
  forall (filtered : list (article.t loc)) (h : heap) out,
    fst (articles_loop s batch filtered h) = inl out ->
    forall a l st,
      In a (retained s batch) -> In l (article.Links a) ->
      fst (findLink s (link.URL (h l))) = Some st ->
      queued_from st (snd (articles_loop s batch filtered h) l).
Proof.
  induction batch as [|a0 rest IH]; intros filtered h out Hout a l st Ha Hl Hst;
    [contradiction|].
  rewrite articles_loop_cons in *. rewrite retained_cons in Ha.
  destruct (lookup_failed (snd (findArticle s (article.URL a0))));
    [discriminate|].
  destruct (is_dismissed (fst (findArticle s (article.URL a0))));
    [now apply IH with out a|].
  pose proof (articles_links_marks s (article.URL a0) (article.Links a0) h)
    as Hmarks.
  pose proof (articles_links_URL (article.URL a0) (article.Links a0) h)
    as Hurl.
  destruct (articles_links s (article.URL a0) (article.Links a0) h)
    as [[e|] h']; simpl in *; [discriminate|].
  destruct Ha as [<-|Ha].
  - apply queued_from_stable with (s := s) (x := h' l).
    + now rewrite Hurl.
    + now apply Hmarks.
    + apply articles_loop_step.
  - apply IH with out a; try assumption. now rewrite Hurl.
Qed.

End ReconcileLoop.

Section Reconciliation.
Variable sort_Sort : forall A : Type, (A -> A -> bool) -> list A -> list A.

Lemma articles_unfold (a : app) (h : heap) :
  articles sort_Sort a h =
  (match fst (articles_loop (store a) (lastFetch a) [] h) with
   | inl filtered => inl (sort_Sort byDate_Less filtered)
   | inr err => inr err
   end,
   snd (articles_loop (store a) (lastFetch a) [] h)).
Proof.
  unfold articles.
  destruct (articles_loop (store a) (lastFetch a) [] h) as [[f|e] h'];
    reflexivity.
Qed.

Lemma articles_ok_inv (a : app) (h : heap) out h' :
  articles sort_Sort a h = (inl out, h') ->
  out = sort_Sort byDate_Less (retained (store a) (lastFetch a)) /\
  h' = snd (articles_loop (store a) (lastFetch a) [] h) /\
  fst (articles_loop (store a) (lastFetch a) [] h) =
    inl (retained (store a) (lastFetch a)).
Proof.
  rewrite articles_unfold.
  pose proof (articles_loop_result (store a) (lastFetch a) [] h) as Hres.
  destruct (find (lookup_fails (store a)) (lookups (store a) h (lastFetch a)));
    rewrite Hres; simpl; intros H; inversion H; subst. auto.
Qed.


Lemma IsSorted_byDate (l : list (article.t loc)) :
  IsSorted byDate_Less l ->
  StronglySorted (fun x y => (article.Date x <= article.Date y)%Z) l.
Proof.
  intros Hs. apply Sorted_StronglySorted.
  - intros x y z Hxy Hyz. lia.
  - unfold IsSorted in Hs.
    induction Hs as [|x l Hs IH Hhd]; constructor; [exact IH|].
    destruct Hhd as [|y l Hyx]; constructor.
    unfold byDate_Less, Before in Hyx. now apply Z.ltb_ge in Hyx.
Qed.

(** C4, as amended.  When [articles] returns a list, it is a rearrangement
    of the retained articles (those without a dismissal on record) in which
    the dates never decrease: oldest first.  Nothing is promised about the
    relative order of two articles with the same date. *)
Theorem articles_sorted_by_Date
  (Hsort : sort_contract sort_Sort) (a : app) (h : heap) out h' :
  articles sort_Sort a h = (inl out, h') ->
  Permutation out (retained (store a) (lastFetch a)) /\
  StronglySorted (fun x y => (article.Date x <= article.Date y)%Z) out.
Proof.
  intros Hart.
  destruct (articles_ok_inv _ _ Hart) as (-> & _ & _).
  destruct (Hsort _ byDate_Less byDate_Less_strict_weak_order
              (retained (store a) (lastFetch a))) as [Hperm Hsorted].
  split; [exact Hperm|now apply IsSorted_byDate].
Qed.

(** C5, as amended.  Whatever [articles] returns, it leaves the ID, URL,
    Domain and Context of every link as they were, and it leaves a link
    wholly as it was unless that link belongs to an article of the batch
    without a dismissal on record and its URL has a LinkState on record; such
    a link may be written in place, and then it has Queued set and QueuedAt
    equal to the recorded time. *)
Theorem articles_writes_only_queue_fields (a : app) (h : heap) (l : loc) :
  let h' := snd (articles sort_Sort a h) in
  same_identity (h l) (h' l) /\
  (h' l = h l \/
   exists art st,
     In art (retained (store a) (lastFetch a)) /\
     In l (article.Links art) /\
     fst (findLink (store a) (link.URL (h l))) = Some st /\
     link.Queued (h' l) = true /\
     link.QueuedAt (h' l) = linkState.QueuedAt st).
Proof.
  rewrite articles_unfold; simpl.
  pose proof (articles_loop_step (store a) (lastFetch a) [] h l) as [Hid Hstep].
  split; [exact Hid|].
  destruct (articles_loop_frame (store a) (lastFetch a) [] h l)
    as [Heq|[art [Hart Hl]]]; [now left|].
  destruct (fst (findLink (store a) (link.URL (h l)))) as [st|];
    [|now left].
  destruct Hstep as [Heq|[Hq Hqa]]; [now left|].
  right. exists art, st. repeat split; assumption.
Qed.

(** C6, as amended.  [articles] returns an error exactly when one of the
    lookups the batch asks for fails with an error other than
    [sql.ErrNoRows]; it then returns no list, and the error is the one built
    for the first such lookup: its message names the kind of lookup, the URL
    of the article being reconciled (also when it is the lookup of one of
    that article's links that failed), and the store's error.  When no lookup
    fails this way, [articles] returns a list. *)
Theorem articles_error_iff_lookup_fails (a : app) (h : heap) :
  match find (lookup_fails (store a)) (lookups (store a) h (lastFetch a)) with
  | None => exists out, fst (articles sort_Sort a h) = inl out
  | Some (LookupArticle u) =>
      fst (articles sort_Sort a h) =
      inr (Errorf_lookup "article" u (snd (findArticle (store a) u)))
  | Some (LookupLink article_url link_url) =>
      fst (articles sort_Sort a h) =
      inr (Errorf_lookup "link" article_url
             (snd (findLink (store a) link_url)))
  end.
Proof.
  rewrite articles_unfold; simpl.
  rewrite articles_loop_result.
  destruct (find (lookup_fails (store a)) (lookups (store a) h (lastFetch a)))
    as [[u|au lu]|]; simpl; try reflexivity.
  eexists; reflexivity.
Qed.

End Reconciliation.

(** ** Termination of walkHTML on pointer structures *)

Lemma size_pos (t : Node) : 1 <= size t.
Proof. destruct t; simpl; lia. Qed.

Section PtrWalkUnfold.
Context {V St : Type} {VS : ptr_visitor V St}.
Variable m : mem.

Lemma ptr_walkHTML_S (fuel : nat) (n : ptr) (v : V) (s : St) :
  ptr_walkHTML m (S fuel) n v s =
  match ptr_visit v (Some n) s with
  | None => None
  | Some (None, s1) => Some s1
  | Some (Some vv, s1) =>
      match ptr_walkSiblings m fuel (FirstChild (m n)) vv s1 with
      | None => None
      | Some s2 =>
          match ptr_visit v None s2 with
          | None => None
          | Some (_, s3) => Some s3
          end
      end
  end.
Proof. reflexivity. Qed.

Lemma ptr_walkSiblings_S (fuel : nat) (child : option ptr) (vv : V) (s : St) :
  ptr_walkSiblings m (S fuel) child vv s =
  match child with
  | None => Some s
  | Some c =>
      match ptr_walkHTML m fuel c vv s with
      | None => None
      | Some s' => ptr_walkSiblings m fuel (NextSibling (m c)) vv s'
      end
  end.
Proof. reflexivity. Qed.

End PtrWalkUnfold.

Section PtrWalkTotal.
Context {V St : Type}.
Variable m : mem.
Variable total_visit : V -> option ptr -> St -> option V * St.

#[local] Abbreviation returning :=
  ((fun v n s => Some (total_visit v n s)) : ptr_visitor V St).

Lemma ptr_walkSiblings_returns (p : option ptr) (ts : list Node) :
  lays_out m p ts ->
  forall (fuel : nat) (vv : V) (s : St),
    2 * list_sum (map size ts) + 1 <= fuel ->
    exists s', ptr_walkSiblings (VS := returning) m fuel p vv s = Some s'.
Proof.
  induction 1 as [|p cs sibs Hcs IHcs Hsibs IHsibs]; intros fuel vv s Hfuel.
  - destruct fuel as [|f]; [simpl in Hfuel; lia|]. now exists s.
  - simpl in Hfuel.
    destruct fuel as [|[|f]]; [lia|lia|].
    rewrite ptr_walkSiblings_S, ptr_walkHTML_S. unfold ptr_visit at 1.
    destruct (total_visit vv (Some p) s) as [[v1|] s1].
    + destruct (IHcs f v1 s1) as [s2 Hs2]; [lia|].
      rewrite Hs2. unfold ptr_visit at 1.
      destruct (total_visit vv None s2) as [r s3].
      apply IHsibs. lia.
    + apply IHsibs. lia.
Qed.

Lemma ptr_walkHTML_returns (root : ptr) (t : Node) :
  subtree_at m root t ->
  forall (fuel : nat) (v : V) (s : St),
    2 * size t <= fuel ->
    exists s', ptr_walkHTML (VS := returning) m fuel root v s = Some s'.
Proof.
  intros [cs [Hcs ->]] fuel v s Hfuel.
  simpl in Hfuel.
  destruct fuel as [|f]; [lia|].
  rewrite ptr_walkHTML_S. unfold ptr_visit at 1.
  destruct (total_visit v (Some root) s) as [[v1|] s1]; [|now exists s1].
  destruct (ptr_walkSiblings_returns Hcs (fuel := f) v1 s1) as [s2 Hs2]; [lia|].
  rewrite Hs2. unfold ptr_visit at 1.
  destruct (total_visit v None s2) as [r s3]. now exists s3.
Qed.

End PtrWalkTotal.

(** A pointer visitor that does on laid-out nodes what a tree visitor does
    on the trees they lay out. *)
Section PtrWalkSimulation.
Context {V St : Type}.
Variable m : mem.
Variable pv : ptr_visitor V St.
Variable tv : visitor V St.
Variable ok : Node -> Prop.

Hypothesis sim_exit : forall v s, pv v None s = Some (tv v None s).
Hypothesis sim_node :
  forall p cs v s,
    lays_out m (FirstChild (m p)) cs ->
    ok (node_at m p cs) ->
    pv v (Some p) s = Some (tv v (Some (node_at m p cs)) s).
Hypothesis ok_children :
  forall t a d ats cs, ok (mkNode t a d ats cs) -> Forall ok cs.

Lemma ptr_walkSiblings_sim (p : option ptr) (ts : list Node) :
  lays_out m p ts ->
  Forall ok ts ->
  forall (fuel : nat) (vv : V) (s : St),
    2 * list_sum (map size ts) + 1 <= fuel ->
    ptr_walkSiblings (VS := pv) m fuel p vv s =
    Some (walkChildren (VS := tv) ts vv s).
Proof.
  induction 1 as [|p cs sibs Hcs IHcs Hsibs IHsibs];
    intros Hok fuel vv s Hfuel.
  - destruct fuel as [|f]; [simpl in Hfuel; lia|]. reflexivity.
  - simpl in Hfuel. inversion Hok as [|t0 ts0 Ht Hoks]; subst.
    destruct fuel as [|[|f]]; [lia|lia|].
    rewrite ptr_walkSiblings_S, ptr_walkHTML_S. cbn [walkChildren].
    rewrite (walkHTML_unfold (VS := tv)).
    unfold ptr_visit at 1. rewrite (@sim_node p cs vv s Hcs Ht).
    unfold visit at 1. simpl children.
    destruct (tv vv (Some (node_at m p cs)) s) as [[v1|] s1].
    + rewrite IHcs; [|now apply ok_children in Ht|lia].
      unfold ptr_visit at 1. rewrite sim_exit. unfold visit at 1.
      destruct (tv vv None (walkChildren cs v1 s1)) as [r s3]; cbn [snd].
      apply IHsibs; [assumption|lia].
    + apply IHsibs; [assumption|lia].
Qed.

Lemma ptr_walkHTML_sim (root : ptr) (t : Node) :
  subtree_at m root t ->
  ok t ->
  forall (fuel : nat) (v : V) (s : St),
    2 * size t <= fuel ->
    ptr_walkHTML (VS := pv) m fuel root v s = Some (walkHTML (VS := tv) t v s).
Proof.
  intros [cs [Hcs ->]] Hok fuel v s Hfuel.
  simpl in Hfuel.
  destruct fuel as [|f]; [lia|].
  rewrite ptr_walkHTML_S. rewrite (walkHTML_unfold (VS := tv)).
  unfold ptr_visit at 1. rewrite (@sim_node root cs v s Hcs Hok).
  unfold visit at 1. simpl children.
  destruct (tv v (Some (node_at m root cs)) s) as [[v1|] s1]; [|reflexivity].
  rewrite (ptr_walkSiblings_sim Hcs); [|now apply ok_children in Hok|lia].
  unfold ptr_visit at 1. rewrite sim_exit. unfold visit at 1.
  now destruct (tv v None (walkChildren cs v1 s1)).
Qed.

End PtrWalkSimulation.

Lemma size_child_le (c : Node) (cs : list Node) :
  In c cs -> size c <= list_sum (map size cs).
Proof.
  induction cs as [|x cs IH]; simpl; [contradiction|].
  intros [->|Hin]; [lia|]. apply IH in Hin. lia.
Qed.

Lemma ptr_flatten_flatten (m : mem) (p : ptr) (t : Node) (fuel : nat) :
  subtree_at m p t -> 2 * size t <= fuel ->
  ptr_flatten fuel m p = Some (flatten t).
Proof.
  intros Ht Hfuel. unfold ptr_flatten, flatten.
  rewrite (@ptr_walkHTML_sim _ _ m (ptr_flattenVisitor_visit m)
             flattenVisitor_visit (fun _ => True)) with (t := t);
    try assumption; try exact I; try reflexivity.
  - intros q cs v s _ _.
    unfold ptr_flattenVisitor_visit, flattenVisitor_visit, node_at; simpl.
    now destruct (NodeType_eqb (nType (m q)) TextNode).
  - intros ? ? ? ? cs _. apply Forall_forall. intros; exact I.
Qed.

Section PtrExtractionFacts.
Variable ToLower : string -> string.
Variable url_Parse : string -> url.URL + error.
Variable m : mem.

Lemma ptr_findLinks_walk_sim (root : ptr) (t : Node) (fuel : nat) :
  subtree_at m root t -> 2 * size t <= fuel ->
  ptr_findLinks_walk ToLower url_Parse fuel m root =
  Some (links (walkHTML (VS := linkVisitor_visit ToLower url_Parse) t tt
                 (mkLinkVisitor None []))).
Proof.
  intros Ht Hfuel. unfold ptr_findLinks_walk.
  rewrite (@ptr_walkHTML_sim _ _ m (ptr_linkVisitor_visit ToLower url_Parse fuel m)
             (linkVisitor_visit ToLower url_Parse)
             (fun n => 2 * size n <= fuel)) with (t := t);
    try assumption; try reflexivity.
  - intros q cs v s Hcs Hsz.
    unfold ptr_linkVisitor_visit, linkVisitor_visit, attr.
    rewrite (@ptr_flatten_flatten m q (node_at m q cs) fuel);
      [|now exists cs|exact Hsz].
    unfold node_at; simpl.
    destruct (NodeType_eqb (nType (m q)) ElementNode
              && N.eqb (nDataAtom (m q)) atom_A); [|reflexivity].
    destruct (negb (String.eqb (attr_loop ToLower (nAttr (m q)) "href") ""));
      [|reflexivity].
    now destruct (url_Parse (attr_loop ToLower (nAttr (m q)) "href")).
  - intros ty a d ats cs Hsz. apply Forall_forall. intros c Hc.
    apply size_child_le in Hc. simpl in Hsz. lia.
Qed.

(** C10. On a pointer structure that is a finite tree below [root],
    [walkHTML(root, v)] returns for every visitor whose [visit] returns: a
    recursion depth and sibling-loop length of twice the number of nodes is
    never exhausted.  In particular [flatten(root)] returns, with the text of
    the tree, and the walk of [findLinks] returns, with the links of the
    tree. *)
Theorem walkHTML_terminates_on_finite_trees (root : ptr) (t : Node) (fuel : nat) :
  subtree_at m root t ->
  2 * size t <= fuel ->
  (forall (V St : Type) (visit_returns : V -> option ptr -> St -> option V * St)
          (v : V) (s : St),
      exists s',
        ptr_walkHTML (VS := fun v n s => Some (visit_returns v n s))
          m fuel root v s = Some s') /\
  ptr_flatten fuel m root = Some (flatten t) /\
  ptr_findLinks_walk ToLower url_Parse fuel m root =
  Some (links (walkHTML (VS := linkVisitor_visit ToLower url_Parse) t tt
                 (mkLinkVisitor None []))).
Proof.
  intros Ht Hfuel. split; [|split].
  - intros V St visit_returns v s.
    now apply ptr_walkHTML_returns with (t := t).
  - now apply ptr_flatten_flatten.
  - now apply ptr_findLinks_walk_sim.
Qed.

End PtrExtractionFacts.

(** ** The properties on sample inputs *)

Lemma pair_of_fst {A B : Type} (p : A * B) (a : A) :
  fst p = a -> p = (a, snd p).
Proof. intros <-. apply surjective_pairing. Qed.

Example findLinks_sample :
  map (fun l => (link.URL l, link.Domain l, link.Context l))
    (fst (findLinks Sample.ToLower Sample.url_Parse Sample.html_Parse "<html>"))
  = [("http://example.com/x", "example.com", "home ");
     ("http://other.com/y", "other.com", "see  this  ")].
Proof. reflexivity. Qed.

Example walkHTML_trace_sample :
  trace_of (VS := flattenVisitor_visit)
    (Sample.anchor [] [Sample.text "a"; Sample.text "b"]) tt
    (mkFlattenVisitor "")
  = [(tt, Some (Sample.anchor [] [Sample.text "a"; Sample.text "b"]));
     (tt, Some (Sample.text "a")); (tt, None);
     (tt, Some (Sample.text "b")); (tt, None);
     (tt, None)].
Proof. reflexivity. Qed.

Example fetch_sample :
  match fetch Sample.ToLower Sample.url_Parse Sample.html_Parse
          Sample.rss_Fetch "http://example.com/feed" with
  | inl [a] =>
      article.Title a = "Assorted Links" /\
      map link.URL (article.Links a) = ["http://other.com/y"]
  | _ => False
  end.
Proof. vm_compute. split; reflexivity. Qed.

Example articles_sample :
  fst (articles small_Sort SampleRuns.app0 Sample.mem0)
  = inl SampleRuns.out0.
Proof. reflexivity. Qed.


Lemma articles_sorted_by_Date_sample :
  Permutation SampleRuns.out0
    (retained (store SampleRuns.app0) (lastFetch SampleRuns.app0)) /\
  StronglySorted (fun x y => (article.Date x <= article.Date y)%Z)
    SampleRuns.out0.
Proof.
  apply (@articles_sorted_by_Date small_Sort small_Sort_contract
           SampleRuns.app0 Sample.mem0 SampleRuns.out0
           (snd (articles small_Sort SampleRuns.app0 Sample.mem0))).
  apply pair_of_fst. vm_compute. reflexivity.
Defined.

Lemma walkHTML_terminates_on_finite_trees_sample :
  (forall (V St : Type) (visit_returns : V -> option ptr -> St -> option V * St)
          (v : V) (s : St),
      exists s',
        ptr_walkHTML (VS := fun v n s => Some (visit_returns v n s))
          Sample.nodes 6 1 v s = Some s') /\
  ptr_flatten 6 Sample.nodes 1 = Some (flatten Sample.nodes_tree) /\
  ptr_findLinks_walk Sample.ToLower Sample.url_Parse 6 Sample.nodes 1 =
  Some (links (walkHTML
                 (VS := linkVisitor_visit Sample.ToLower Sample.url_Parse)
                 Sample.nodes_tree tt (mkLinkVisitor None []))).
Proof.
  apply (@walkHTML_terminates_on_finite_trees Sample.ToLower Sample.url_Parse
           Sample.nodes 1 Sample.nodes_tree 6).
  - exists [node_at Sample.nodes 2 []; node_at Sample.nodes 3 []].
    split; [|reflexivity].
    change (FirstChild (Sample.nodes 1)) with (Some 2).
    apply lays_out_cons.
    + change (FirstChild (Sample.nodes 2)) with (@None ptr). constructor.
    + change (NextSibling (Sample.nodes 2)) with (Some 3).
      apply lays_out_cons.
      * change (FirstChild (Sample.nodes 3)) with (@None ptr). constructor.
      * change (NextSibling (Sample.nodes 3)) with (@None ptr). constructor.
  - vm_compute. apply le_n.
Defined.


(** Seven articles, the first six of one date and the last one older: the
    ShellSort pass swaps the first with the last, so the first ends behind
    the five it tied with.  C4's stability fails. *)
Lemma articles_order_of_ties_not_kept :
  ~ (forall (sort : forall A : Type, (A -> A -> bool) -> list A -> list A)
            (a : app) (h : heap) out h',
        sort_contract sort ->
        articles sort a h = (inl out, h') ->
        forall d, dated d out = dated d (retained (store a) (lastFetch a))).
Proof.
  intros H.
  specialize (H small_Sort SampleRuns.app_ties Sample.mem0
                [Sample.t7; Sample.t2; Sample.t3; Sample.t4; Sample.t5;
                 Sample.t6; Sample.t1]
                (snd (articles small_Sort SampleRuns.app_ties Sample.mem0))
                small_Sort_contract (pair_of_fst _ eq_refl) 5%Z).
  vm_compute in H. discriminate H.
Qed.

(** [articles] writes the Queued flag into the link of the batch itself: C5
    as stated fails. *)
Lemma articles_mutates_batch_links :
  ~ (forall (sort : forall A : Type, (A -> A -> bool) -> list A -> list A)
            (a : app) (h : heap) (l : loc),
        snd (articles sort a h) l = h l).
Proof.
  intros H.
  specialize (H small_Sort SampleRuns.app0 Sample.mem0 0).
  vm_compute in H. discriminate H.
Qed.

(** When the lookup of a link fails, the error names the article's URL and
    not the URL that was looked up: C6 as stated fails. *)
Lemma articles_link_error_names_article :
  ~ (forall (sort : forall A : Type, (A -> A -> bool) -> list A -> list A)
            (a : app) (h : heap) q e,
        find (lookup_fails (store a)) (lookups (store a) h (lastFetch a))
          = Some q ->
        fst (articles sort a h) = inr e ->
        Contains (Error e) (lookup_url q) = true).
Proof.
  intros H.
  specialize (H small_Sort SampleRuns.app_broken Sample.mem0
                (LookupLink "http://example.com/p3" "http://other.com/y")
                (ErrOther
                   "error while looking up link from http://example.com/p3 in DB: disk I/O error")
                eq_refl eq_refl).
  vm_compute in H. discriminate H.
Qed.

(** * Further properties of the code *)

(** ** walkHTML with a visitor that always descends *)

Section DescendingVisitor.
Context {V St : Type} {VS : visitor V St}.

Lemma trace_of_unfold (root : Node) (v : V) (s : St) :
  trace_of root v s =
  match visit v (Some root) s with
  | (None, _) => [(v, Some root)]
  | (Some vv, s1) =>
      (v, Some root) :: trace_children (children root) vv s1 ++ [(v, None)]
  end.
Proof.
  unfold trace_of.
  rewrite (walkHTML_unfold (VS := traced VS)), traced_visit.
  destruct (visit v (Some root) s) as [[vv|] s1]; simpl; [|reflexivity].
  now rewrite traced_walkChildren, traced_visit.
Qed.

Lemma entered_app (a b : list (V * option Node)) :
  entered (a ++ b) = entered a ++ entered b.
Proof. unfold entered. apply flat_map_app. Qed.

Lemma exits_app (a b : list (V * option Node)) :
  exits (a ++ b) = exits a + exits b.
Proof. unfold exits. now rewrite filter_app, length_app. Qed.

(** X1. With a visitor whose [visit] never returns nil on a node, [walkHTML]
    calls [visit] on every node of the tree exactly once, in document order,
    and makes exactly one exit call [visit(nil)] per node. *)
Theorem walkHTML_visits_every_node
  (Hdescends : forall v n s, fst (visit v (Some n) s) <> None)
  (root : Node) (v : V) (s : St) :
  entered (trace_of root v s) = preorder root /\
  exits (trace_of root v s) = size root.
Proof.
  revert v s.
  induction root as [t a d ats cs IH] using Node_ind.
  assert (Hcs : forall vv s,
             entered (trace_children cs vv s) = flat_map preorder cs /\
             exits (trace_children cs vv s) = list_sum (map size cs)).
  { induction IH as [|c cs Hc _ IHcs]; intros vv s; simpl.
    - split; reflexivity.
    - destruct (Hc vv s) as [He Hx].
      destruct (IHcs vv (walkHTML c vv s)) as [He' Hx'].
      rewrite entered_app, exits_app, He, He', Hx, Hx'. split; reflexivity. }
  intros v s. rewrite trace_of_unfold.
  pose proof (Hdescends v (mkNode t a d ats cs) s) as Hd.
  destruct (visit v (Some (mkNode t a d ats cs)) s) as [[vv|] s1];
    [|now elim Hd].
  simpl children. destruct (Hcs vv s1) as [He Hx].
  change ((v, Some (mkNode t a d ats cs))
          :: trace_children cs vv s1 ++ [(v, None)])
    with ([(v, Some (mkNode t a d ats cs))]
          ++ trace_children cs vv s1 ++ [(v, None)]).
  rewrite !entered_app, !exits_app, He, Hx.
  unfold exits at 1 2, entered at 1 2. simpl.
  rewrite app_nil_r. split; [reflexivity|lia].
Qed.

End DescendingVisitor.

(** ** flatten, findLinks and fetch: what their results always satisfy *)

Lemma texts_of_children (cs : list Node) :
  texts_of (flat_map preorder cs) = concat_strings (map flatten cs).
Proof.
  induction cs as [|c cs IH]; simpl; [reflexivity|].
  rewrite texts_of_app, IH, flatten_subtree_text. reflexivity.
Qed.

(** X2. [flatten] works subtree by subtree: the text of a node is its own
    content and a space if it is a text node, nothing otherwise, followed by
    the [flatten] of each child in order. *)
Theorem flatten_composes (t : NodeType) (a : Atom) (d : string)
  (ats : list Attribute) (cs : list Node) :
  flatten (mkNode t a d ats cs) =
  ((if NodeType_eqb t TextNode then d ++ " " else "")
   ++ concat_strings (map flatten cs))%string.
Proof.
  rewrite flatten_subtree_text. unfold subtree_text.
  change (preorder (mkNode t a d ats cs))
    with ([mkNode t a d ats cs] ++ flat_map preorder cs).
  rewrite texts_of_app, texts_of_children.
  unfold texts_of at 1, is_text; simpl.
  destruct (NodeType_eqb t TextNode); simpl; [|reflexivity].
  now rewrite string_app_nil_r.
Qed.

Section ExtractionInvariants.
Variable ToLower : string -> string.
Variable url_Parse : string -> url.URL + error.
Variable html_Parse : string -> Node + error.
Variable rss_Fetch : string -> rss.Feed.t + error.

#[local] Abbreviation find_links' := (findLinks ToLower url_Parse html_Parse).

Lemma findLinks_Forall_valid (P : link.t -> Prop) :
  (forall n, valid_anchor ToLower url_Parse n = true ->
             P (link_at ToLower url_Parse n)) ->
  forall s, Forall P (fst (find_links' s)).
Proof.
  intros HP s. unfold findLinks.
  destruct (html_Parse s) as [root|err]; simpl; [|constructor].
  rewrite linkVisitor_walk; simpl.
  apply Forall_forall. intros l Hl.
  apply in_map_iff in Hl as [n [<- Hn]].
  apply filter_In in Hn as [_ Hn]. now apply HP.
Qed.

(** X3. Every Link [findLinks] returns has a URL that is not empty and that
    [url.Parse] accepts, with the parsed host as its Domain, and ID 0; there
    are never more links than anchor elements in the document, and none when
    the document does not parse. *)
Theorem findLinks_links_wellformed (s : string) :
  Forall (fun l => link.URL l <> "" /\ reparses url_Parse l /\ link.ID l = 0%Z)
    (fst (find_links' s)) /\
  match html_Parse s with
  | inl root =>
      List.length (fst (find_links' s))
      <= List.length (filter is_anchor (preorder root))
  | inr err => find_links' s = ([], Some err)
  end.
Proof.
  split.
  - apply findLinks_Forall_valid. intros n Hn.
    unfold valid_anchor in Hn.
    apply andb_prop in Hn as [Hn Hp]. apply andb_prop in Hn as [_ He].
    unfold link_at, reparses, parsed_host; simpl.
    repeat split.
    + intros Heq. rewrite Heq in He. discriminate He.
    + destruct (url_Parse (attr ToLower n "href")) as [u|e];
        [now exists u|discriminate].
  - unfold findLinks.
    destruct (html_Parse s) as [root|err]; [|reflexivity].
    rewrite linkVisitor_walk; simpl. rewrite length_map.
    induction (preorder root) as [|n ns IH]; simpl; [lia|].
    unfold valid_anchor at 1.
    destruct (is_anchor n); simpl; [|exact IH].
    destruct (negb (String.eqb (attr ToLower n "href") "")
              && match url_Parse (attr ToLower n "href") with
                 | inl _ => true
                 | inr _ => false
                 end); simpl; lia.
Qed.

Lemma length_flat_map_le {A B : Type} (f : A -> list B) (l : list A) :
  (forall x, List.length (f x) <= 1) ->
  List.length (flat_map f l) <= List.length l.
Proof.
  intros Hf. induction l as [|x l IH]; simpl; [lia|].
  rewrite length_app. specialize (Hf x). lia.
Qed.

Lemma extracted_links_ok (item : rss.Item.t) :
  Forall (fun l => link.URL l <> "" /\ unqueued l)
    (extracted ToLower url_Parse html_Parse item).
Proof.
  unfold extracted. apply findLinks_Forall_valid. intros n Hn.
  unfold valid_anchor in Hn.
  apply andb_prop in Hn as [Hn _]. apply andb_prop in Hn as [_ He].
  unfold link_at, unqueued; simpl. repeat split.
  intros Heq. rewrite Heq in He. discriminate He.
Qed.

Lemma assemble_assembled_from (feed : rss.Feed.t) (feedurl : url.URL)
  (item : rss.Item.t) (a : article.t link.t) :
  In item (rss.Feed.Items feed) ->
  In a (assemble ToLower url_Parse html_Parse feed feedurl item) ->
  assembled_from ToLower url_Parse html_Parse feed feedurl a.
Proof.
  intros Hitem Ha. unfold assemble in Ha.
  destruct (passes_title ToLower item) eqn:Hp; [|contradiction].
  pose proof (extracted_links_ok item) as Hok.
  destruct (extracted ToLower url_Parse html_Parse item) as [|l ls] eqn:He;
    [contradiction|].
  destruct Ha as [<-|[]].
  unfold assembled_from; cbn [article.Title article.Feed article.URL
                               article.Date article.Links].
  split; [exact Hp|]. split; [reflexivity|]. split.
  - exists item. rewrite He. repeat split; try assumption. discriminate.
  - apply Forall_forall. intros x Hx.
    apply filter_In in Hx as [Hx Hout].
    rewrite Forall_forall in Hok. destruct (Hok x Hx) as [Hne Hunq].
    split; [|split; assumption].
    unfold outbound in Hout. intros Heq. rewrite Heq in Hout.
    now rewrite String.eqb_refl in Hout.
Qed.

(** X4. Every Article [fetch] returns comes from an item of the feed whose
    title contains "link" in lower case and whose content gave at least one
    link; it carries the feed's title; none of its Links has the feed's own
    host as Domain, an empty URL or a Queued flag; and there are never more
    Articles than items. *)
Theorem fetch_articles_wellformed (urlstr : string) :
  match fetch ToLower url_Parse html_Parse rss_Fetch urlstr with
  | inl fetched =>
      exists feed feedurl,
        rss_Fetch urlstr = inl feed /\
        url_Parse (rss.Feed.Link feed) = inl feedurl /\
        List.length fetched <= List.length (rss.Feed.Items feed) /\
        Forall (assembled_from ToLower url_Parse html_Parse feed feedurl)
          fetched
  | inr err =>
      rss_Fetch urlstr = inr err \/
      exists feed,
        rss_Fetch urlstr = inl feed /\ url_Parse (rss.Feed.Link feed) = inr err
  end.
Proof.
  unfold fetch.
  destruct (rss_Fetch urlstr) as [feed|err]; [|now left].
  destruct (url_Parse (rss.Feed.Link feed)) as [feedurl|err] eqn:Hu;
    [|right; now exists feed].
  exists feed, feedurl. split; [reflexivity|]. split; [exact Hu|].
  rewrite fetch_items_assemble; simpl. split.
  - apply length_flat_map_le. intros item. unfold assemble.
    destruct (passes_title ToLower item); [|simpl; lia].
    destruct (extracted ToLower url_Parse html_Parse item); simpl; lia.
  - apply Forall_forall. intros a Ha.
    apply in_flat_map in Ha as [item [Hitem Ha]].
    now apply assemble_assembled_from with item.
Qed.

End ExtractionInvariants.

(** ** app.articles: repeated calls and a database without faults *)

Lemma link_eq_of_fields (x y : link.t) :
  same_identity x y ->
  link.Queued y = link.Queued x -> link.QueuedAt y = link.QueuedAt x ->
  y = x.
Proof.
  destruct x, y; unfold same_identity; simpl.
  intros (-> & -> & -> & ->) -> ->. reflexivity.
Qed.

Section ReconcileAgain.
Variable sort_Sort : forall A : Type, (A -> A -> bool) -> list A -> list A.

(** X5. [articles] is idempotent: called again on the heap a successful call
    left, against the same store, it returns the same list and writes
    nothing new. *)
Theorem articles_idempotent (a : app) (h : heap) out h1 :
  articles sort_Sort a h = (inl out, h1) ->
  fst (articles sort_Sort a h1) = inl out /\
  forall l, snd (articles sort_Sort a h1) l = h1 l.
Proof.
  intros Hart.
  destruct (articles_ok_inv _ _ _ Hart) as (-> & -> & Hloop).
  set (s := store a) in *. set (batch := lastFetch a) in *.
  set (h1 := snd (articles_loop s batch [] h)).
  assert (Hurl : forall l, link.URL (h1 l) = link.URL (h l))
    by (intros l; apply (articles_loop_step s batch [] h l)).
  pose proof (articles_loop_result s batch [] h) as Hres.
  pose proof (articles_loop_result s batch [] h1) as Hres1.
  rewrite (lookups_same_URL s h1 h batch Hurl) in Hres1.
  rewrite Hloop in Hres.
  rewrite articles_unfold. fold s batch. simpl.
  destruct (find (lookup_fails s) (lookups s h batch)); [discriminate|].
  rewrite Hres1. simpl. split; [reflexivity|].
  intros l.
  destruct (articles_loop_frame s batch [] h1 l) as [Heq|[art [Hart' Hl]]];
    [exact Heq|].
  pose proof (articles_loop_step s batch [] h1 l) as [Hid Hstep].
  rewrite Hurl in Hstep.
  destruct (fst (findLink s (link.URL (h l)))) as [st|] eqn:Hst;
    [|exact Hstep].
  destruct Hstep as [Heq|[Hq Hqa]]; [exact Heq|].
  destruct (articles_loop_marks s batch [] h Hloop art l Hart' Hl Hst)
    as [Hq1 Hqa1].
  fold h1 in Hq1, Hqa1.
  apply link_eq_of_fields; [exact Hid|congruence|congruence].
Qed.

(** X6. Against a database that answers every lookup, [articles] never
    returns an error: a missing row is not one. *)
Theorem articles_succeeds_without_faults (db : DbMap)
  (batch : list (article.t loc)) (h : heap) :
  exists out,
    fst (articles sort_Sort (mkApp (store_of no_fault no_fault db) batch) h)
    = inl out.
Proof.
  rewrite articles_unfold; simpl.
  rewrite articles_loop_result.
  destruct (find (lookup_fails (store_of no_fault no_fault db))
              (lookups (store_of no_fault no_fault db) h batch))
    as [q|] eqn:Hq; [|eexists; reflexivity].
  apply find_some in Hq as [_ Hq]. exfalso.
  unfold lookup_fails, lookup_error, findArticle, findLink, store_of in Hq.
  destruct q as [u|au lu]; simpl in Hq.
  - destruct (find (fun r => String.eqb (articleState.URL r) u)
                (articles_rows db)); discriminate.
  - destruct (find (fun r => String.eqb (linkState.URL r) lu) (links_rows db));
      discriminate.
Qed.

End ReconcileAgain.

(** ** The marks and the lookups *)

Lemma find_snoc {A : Type} (f : A -> bool) (l : list A) (x : A) :
  find f (l ++ [x]) =
  match find f l with
  | Some y => Some y
  | None => if f x then Some x else None
  end.
Proof. rewrite find_app. simpl. now destruct (find f l), (f x). Qed.

(** X7. After [markLinkQueued(url)] on a working database, [findLink] finds
    for every URL the row it found before; for [url] itself, if it found
    none before, it now finds the new row, queued at the time of the call;
    every other lookup, and every [findArticle], answers as before. *)
Theorem markLinkQueued_then_findLink (now : Time) (db : DbMap) (url u : string) :
  let db' := fst (markLinkQueued None now db url) in
  snd (markLinkQueued None now db url) = None /\
  findLink (store_of no_fault no_fault db') u =
    match findLink (store_of no_fault no_fault db) u with
    | (Some r, err) => (Some r, err)
    | (None, err) =>
        if String.eqb url u
        then (Some (linkState.mk (next_ID (map linkState.ID (links_rows db)))
                      url "" now), None)
        else (None, err)
    end /\
  findArticle (store_of no_fault no_fault db') u =
  findArticle (store_of no_fault no_fault db) u.
Proof.
  unfold markLinkQueued, Insert_link, findLink, findArticle, store_of,
    SelectOne_link, SelectOne_article, no_fault; simpl.
  split; [reflexivity|]. split; [|reflexivity].
  rewrite find_snoc; simpl.
  destruct (find (fun r => String.eqb (linkState.URL r) u) (links_rows db));
    [reflexivity|].
  destruct (String.eqb url u); reflexivity.
Qed.

(** X8. After [markArticleDismissed(url)] on a working database,
    [findArticle] finds for every URL the row it found before; for [url]
    itself, if it found none before, it now finds the new row, dismissed at
    the time of the call; every [findLink] answers as before. *)
Theorem markArticleDismissed_then_findArticle (now : Time) (db : DbMap)
  (url u : string) :
  let db' := fst (markArticleDismissed None now db url) in
  snd (markArticleDismissed None now db url) = None /\
  findArticle (store_of no_fault no_fault db') u =
    match findArticle (store_of no_fault no_fault db) u with
    | (Some r, err) => (Some r, err)
    | (None, err) =>
        if String.eqb url u
        then (Some (articleState.mk
                      (next_ID (map articleState.ID (articles_rows db)))
                      url now), None)
        else (None, err)
    end /\
  findLink (store_of no_fault no_fault db') u =
  findLink (store_of no_fault no_fault db) u.
Proof.
  unfold markArticleDismissed, Insert_article, findLink, findArticle, store_of,
    SelectOne_link, SelectOne_article, no_fault; simpl.
  split; [reflexivity|]. split; [|reflexivity].
  rewrite find_snoc; simpl.
  destruct (find (fun r => String.eqb (articleState.URL r) u)
              (articles_rows db)); [reflexivity|].
  destruct (String.eqb url u); reflexivity.
Qed.

Section MarksAndArticles.
Variable sort_Sort : forall A : Type, (A -> A -> bool) -> list A -> list A.
Hypothesis Hsort : sort_contract sort_Sort.

Lemma articles_out_retained (a : app) (h : heap) out h' :
  articles sort_Sort a h = (inl out, h') ->
  forall art, In art out -> In art (retained (store a) (lastFetch a)).
Proof.
  intros Hart art Hin.
  destruct (articles_ok_inv _ _ _ Hart) as (-> & _ & _).
  destruct (@Hsort _ byDate_Less byDate_Less_strict_weak_order
              (retained (store a) (lastFetch a))) as [Hperm _].
  now apply Permutation_in with (1 := Hperm).
Qed.

(** X9. Dismissing works: after [markArticleDismissed(url)] at a time that
    is not the zero time, on a working database whose rows for [url] (if any)
    carry a non-zero DismissedAt, [articles] lists no article with that
    URL. *)
Theorem dismissed_article_not_listed (now : Time) (db : DbMap) (url : string)
  (batch : list (article.t loc)) (h : heap) out h' :
  IsZero now = false ->
  (forall r, In r (articles_rows db) -> articleState.URL r = url ->
             IsZero (articleState.DismissedAt r) = false) ->
  articles sort_Sort
    (mkApp (store_of no_fault no_fault
              (fst (markArticleDismissed None now db url))) batch) h
  = (inl out, h') ->
  forall art, In art out -> article.URL art <> url.
Proof.
  intros Hnow Hrows Hart art Hin Hurl.
  apply (articles_out_retained _ _ Hart) in Hin.
  apply filter_In in Hin as [_ Hnd]. simpl in Hnd.
  rewrite Hurl in Hnd.
  unfold findArticle, store_of, SelectOne_article, no_fault,
    markArticleDismissed, Insert_article in Hnd; simpl in Hnd.
  rewrite find_snoc in Hnd; simpl in Hnd.
  destruct (find (fun r => String.eqb (articleState.URL r) url)
              (articles_rows db)) as [r|] eqn:Hr.
  - apply find_some in Hr as [Hr Hu]. apply String.eqb_eq in Hu.
    simpl in Hnd. now rewrite (Hrows r Hr Hu) in Hnd.
  - rewrite String.eqb_refl in Hnd. simpl in Hnd. now rewrite Hnow in Hnd.
Qed.

(** X10. Queueing works: after [markLinkQueued(url)] on a working database,
    every link with that URL in an article [articles] lists has Queued set,
    and its QueuedAt is the time of this call or, if [url] was marked before,
    the time of the first row for it. *)
Theorem queued_link_flagged (now : Time) (db : DbMap) (url : string)
  (batch : list (article.t loc)) (h : heap) out h' :
  articles sort_Sort
    (mkApp (store_of no_fault no_fault (fst (markLinkQueued None now db url)))
       batch) h
  = (inl out, h') ->
  forall art l,
    In art out -> In l (article.Links art) -> link.URL (h l) = url ->
    link.Queued (h' l) = true /\
    link.QueuedAt (h' l) =
      match find (fun r => String.eqb (linkState.URL r) url) (links_rows db) with
      | Some r => linkState.QueuedAt r
      | None => now
      end.
Proof.
  intros Hart art l Hin Hl Hurl.
  pose proof (articles_out_retained _ _ Hart art Hin) as Hret.
  destruct (articles_ok_inv _ _ _ Hart) as (_ & -> & Hloop).
  simpl in *.
  set (s := store_of no_fault no_fault (fst (markLinkQueued None now db url)))
    in *.
  assert (Hst : exists st,
             fst (findLink s (link.URL (h l))) = Some st /\
             linkState.QueuedAt st =
             match find (fun r => String.eqb (linkState.URL r) url)
                     (links_rows db) with
             | Some r => linkState.QueuedAt r
             | None => now
             end).
  { rewrite Hurl. unfold s, findLink, store_of, SelectOne_link, no_fault,
      markLinkQueued, Insert_link; simpl.
    rewrite find_snoc; simpl.
    destruct (find (fun r => String.eqb (linkState.URL r) url) (links_rows db))
      as [r|]; simpl.
    - now exists r.
    - rewrite String.eqb_refl; simpl. eexists; split; reflexivity. }
  destruct Hst as [st [Hst Hat]].
  destruct (articles_loop_marks s batch [] h Hloop art l Hret Hl Hst)
    as [Hq Hqa].
  split; [exact Hq|]. rewrite <- Hat. exact Hqa.
Qed.

End MarksAndArticles.

(** ** refreshFeeds *)

Lemma alloc_links_spec (ls : list link.t) :
  forall (next : loc) (h : heap) ps next' h',
    alloc_links ls next h = (ps, next', h') ->
    ps = seq next (List.length ls) /\
    next' = next + List.length ls /\
    map h' ps = ls /\
    forall l, l < next -> h' l = h l.
Proof.
  induction ls as [|x ls IH]; intros next h ps next' h' Halloc; simpl in Halloc.
  - injection Halloc as <- <- <-. repeat split; simpl; lia.
  - destruct (alloc_links ls (S next) (heap_set h next x)) as [[ps0 n0] h0]
      eqn:Hrest.
    injection Halloc as <- <- <-.
    destruct (IH _ _ _ _ _ Hrest) as (-> & -> & Hmap & Hold).
    assert (Hnext : h0 next = x).
    { rewrite Hold by lia. unfold heap_set. now rewrite Nat.eqb_refl. }
    repeat split; simpl.
    + lia.
    + now rewrite Hnext, Hmap.
    + intros l Hl. rewrite Hold by lia. unfold heap_set.
      destruct (Nat.eqb_spec l next); [lia|reflexivity].
Qed.

Lemma publish_spec (fetched : list (article.t link.t)) :
  forall (next : loc) (h : heap) batch next' h',
    publish fetched next h = (batch, next', h') ->
    map (deref h') batch = fetched /\
    batch_links batch = seq next (List.length (fetched_links fetched)) /\
    next' = next + List.length (fetched_links fetched) /\
    forall l, l < next -> h' l = h l.
Proof.
  induction fetched as [|a rest IH]; intros next h batch next' h' Hpub;
    simpl in Hpub.
  - injection Hpub as <- <- <-. repeat split; simpl; lia.
  - destruct (alloc_links (article.Links a) next h) as [[ps next1] h1] eqn:Ha.
    destruct (publish rest next1 h1) as [[rest' next2] h2] eqn:Hr.
    injection Hpub as <- <- <-.
    destruct (alloc_links_spec _ _ _ Ha) as (-> & -> & Hmap & Hold).
    destruct (IH _ _ _ _ _ Hr) as (Hderef & Hlinks & -> & Hold').
    unfold fetched_links in *. simpl. rewrite length_app.
    repeat split.
    + f_equal; [|exact Hderef].
      unfold deref; simpl.
      assert (Hm2 : map h2 (seq next (List.length (article.Links a)))
                    = article.Links a).
      { etransitivity; [|exact Hmap].
        apply map_ext_in. intros l Hl. apply in_seq in Hl. apply Hold'. lia. }
      rewrite Hm2. now destruct a.
    + unfold batch_links in *; simpl. rewrite Hlinks.
      now rewrite seq_app.
    + lia.
    + intros l Hl. rewrite Hold' by lia. now apply Hold.
Qed.

Section RefreshFacts.
Variable ToLower : string -> string.
Variable url_Parse : string -> url.URL + error.
Variable html_Parse : string -> Node + error.

#[local] Abbreviation refresh := (refreshFeeds ToLower url_Parse html_Parse).

Lemma refreshFeeds_ok (rss_Fetch : string -> rss.Feed.t + error)
  (srv : server) (fetched : list (article.t link.t)) :
  fetch ToLower url_Parse html_Parse rss_Fetch feed_urlstr = inl fetched ->
  let srv' := fst (refresh rss_Fetch srv) in
  snd (refresh rss_Fetch srv) = None /\
  srv_db srv' = srv_db srv /\
  map (deref (srv_mem srv')) (srv_lastFetch srv') = fetched /\
  batch_links (srv_lastFetch srv') =
    seq (srv_next srv) (List.length (fetched_links fetched)) /\
  srv_next srv' = srv_next srv + List.length (fetched_links fetched) /\
  forall l, l < srv_next srv -> srv_mem srv' l = srv_mem srv l.
Proof.
  intros Hfetch. unfold refreshFeeds. rewrite Hfetch.
  destruct (publish fetched (srv_next srv) (srv_mem srv))
    as [[batch next'] h'] eqn:Hpub.
  destruct (publish_spec _ _ _ Hpub) as (H1 & H2 & H3 & H4).
  simpl. repeat split; assumption.
Qed.

(** X11. [refreshFeeds] either fails with the error of [fetch] and changes
    nothing, or succeeds and replaces the batch: the new batch is the fetched
    one, article by article and link by link, every link at a location of
    its own that was not in use before; the database and all links made
    earlier are as they were. *)
Theorem refreshFeeds_replaces_batch (rss_Fetch : string -> rss.Feed.t + error)
  (srv : server) :
  match fetch ToLower url_Parse html_Parse rss_Fetch feed_urlstr with
  | inr err => refresh rss_Fetch srv = (srv, Some err)
  | inl fetched =>
      let srv' := fst (refresh rss_Fetch srv) in
      snd (refresh rss_Fetch srv) = None /\
      srv_db srv' = srv_db srv /\
      map (deref (srv_mem srv')) (srv_lastFetch srv') = fetched /\
      batch_links (srv_lastFetch srv') =
        seq (srv_next srv) (List.length (fetched_links fetched)) /\
      srv_next srv' = srv_next srv + List.length (fetched_links fetched) /\
      map (srv_mem srv') (seq 0 (srv_next srv)) =
      map (srv_mem srv) (seq 0 (srv_next srv))
  end.
Proof.
  destruct (fetch ToLower url_Parse html_Parse rss_Fetch feed_urlstr)
    as [fetched|err] eqn:Hfetch.
  - destruct (refreshFeeds_ok rss_Fetch srv Hfetch)
      as (H1 & H2 & H3 & H4 & H5 & H6).
    repeat split; try assumption.
    apply map_ext_in. intros l Hl. apply in_seq in Hl. apply H6. lia.
  - unfold refreshFeeds. now rewrite Hfetch.
Qed.

End RefreshFacts.

(** ** The running program: Queued flags always have a row behind them *)

Section Running.
Variable ToLower : string -> string.
Variable url_Parse : string -> url.URL + error.
Variable html_Parse : string -> Node + error.
Variable sort_Sort : forall A : Type, (A -> A -> bool) -> list A -> list A.

#[local] Abbreviation reached :=
  (reachable ToLower url_Parse html_Parse sort_Sort).

Lemma fetch_links_unqueued (rss_Fetch : string -> rss.Feed.t + error)
  (urlstr : string) (fetched : list (article.t link.t)) :
  fetch ToLower url_Parse html_Parse rss_Fetch urlstr = inl fetched ->
  Forall unqueued (fetched_links fetched).
Proof.
  unfold fetch.
  destruct (rss_Fetch urlstr) as [feed|err]; [|discriminate].
  destruct (url_Parse (rss.Feed.Link feed)) as [feedurl|err]; [|discriminate].
  intros H. injection H as <-.
  rewrite fetch_items_assemble; simpl.
  apply Forall_forall. intros l Hl.
  apply in_flat_map in Hl as [a [Ha Hl]].
  apply in_flat_map in Ha as [item [Hitem Ha]].
  destruct (assemble_assembled_from ToLower url_Parse html_Parse
              feed feedurl item a Hitem Ha) as (_ & _ & _ & Hall).
  rewrite Forall_forall in Hall. now apply Hall.
Qed.

Lemma run_articles_snd (fa fl : string -> option error) (srv : server) :
  snd (run_articles sort_Sort fa fl srv) =
  mkServer (srv_db srv) (srv_lastFetch srv)
    (snd (articles_loop (store_of fa fl (srv_db srv)) (srv_lastFetch srv) []
            (srv_mem srv)))
    (srv_next srv).
Proof.
  unfold run_articles. rewrite articles_unfold. reflexivity.
Qed.

Lemma SelectOne_link_found (fault : option error) (db : DbMap) (u : string)
  (r : linkState.t) :
  SelectOne_link fault db u = inl r -> SelectOne_link None db u = inl r.
Proof. unfold SelectOne_link. destruct fault; [discriminate|auto]. Qed.

Lemma SelectOne_link_kept (fault : option error) (now : Time) (db : DbMap)
  (url u : string) (r : linkState.t) :
  SelectOne_link None db u = inl r ->
  SelectOne_link None (fst (markLinkQueued fault now db url)) u = inl r.
Proof.
  unfold markLinkQueued, Insert_link, SelectOne_link.
  destruct fault; simpl; [auto|].
  rewrite find_snoc.
  destruct (find (fun r0 => String.eqb (linkState.URL r0) u) (links_rows db));
    [auto|discriminate].
Qed.

Lemma findLink_working (db : DbMap) (u : string) :
  fst (findLink (store_of no_fault no_fault db) u) =
  match SelectOne_link None db u with
  | inl r => Some r
  | inr _ => None
  end.
Proof.
  unfold findLink, store_of; cbn [SelectOne_links]. unfold no_fault.
  now destruct (SelectOne_link None db u).
Qed.

Lemma reachable_flags_backed (srv : server) : reached srv -> flags_backed srv.
Proof.
  induction 1 as [db h next|srv rss_Fetch _ IH|srv fa fl _ IH
                 |srv fault now url _ IH|srv fault now url _ IH].
  - intros a l [].
  - destruct (fetch ToLower url_Parse html_Parse rss_Fetch feed_urlstr)
      as [fetched|err] eqn:Hfetch.
    + destruct (refreshFeeds_ok ToLower url_Parse html_Parse rss_Fetch srv
                  Hfetch) as (_ & _ & Hderef & _).
      pose proof (fetch_links_unqueued _ _ Hfetch) as Hunq.
      rewrite Forall_forall in Hunq.
      intros a l Ha Hl Hq. exfalso.
      assert (Hin : In (srv_mem (fst (refreshFeeds ToLower url_Parse
                                        html_Parse rss_Fetch srv)) l)
                      (fetched_links fetched)).
      { apply in_flat_map.
        exists (deref (srv_mem (fst (refreshFeeds ToLower url_Parse
                                       html_Parse rss_Fetch srv))) a).
        split; [rewrite <- Hderef; now apply in_map|].
        unfold deref; simpl. now apply in_map. }
      destruct (Hunq _ Hin) as [Hfalse _]. congruence.
    + unfold refreshFeeds. rewrite Hfetch. exact IH.
  - rewrite run_articles_snd. intros a l Ha Hl Hq.
    cbn [srv_lastFetch srv_mem srv_db] in *.
    pose proof (articles_loop_step (store_of fa fl (srv_db srv))
                  (srv_lastFetch srv) [] (srv_mem srv) l) as [Hid Hstep].
    assert (Hurl : link.URL (snd (articles_loop (store_of fa fl (srv_db srv))
                                    (srv_lastFetch srv) [] (srv_mem srv)) l)
                   = link.URL (srv_mem srv l)) by apply Hid.
    rewrite Hurl.
    unfold findLink, store_of in Hstep; simpl in Hstep.
    destruct (SelectOne_link (fl (link.URL (srv_mem srv l))) (srv_db srv)
                (link.URL (srv_mem srv l))) as [st|e] eqn:Hsel;
      simpl in Hstep.
    + exists st. now apply SelectOne_link_found with (1 := Hsel).
    + change (snd (articles_loop (store_of fa fl (srv_db srv))
                     (srv_lastFetch srv) [] (srv_mem srv)) l
              = srv_mem srv l) in Hstep.
      rewrite Hstep in Hq. now apply (IH a l).
  - intros a l Ha Hl Hq. simpl in *.
    destruct (IH a l Ha Hl Hq) as [r Hr].
    exists r. now apply SelectOne_link_kept.
  - intros a l Ha Hl Hq. simpl in *.
    destruct (IH a l Ha Hl Hq) as [r Hr].
    exists r. unfold markArticleDismissed, Insert_article.
    destruct fault; exact Hr.
Qed.

(** X12. In every state the program reaches, a Queued flag on a link of the
    batch has a row of the links table behind it.  So when [articles] is
    then called on a working database and returns a list, each link of each
    listed article has Queued set exactly when its URL has a LinkState: a
    link without one has Queued false. *)
Theorem reachable_Queued_iff_LinkState
  (Hsort : sort_contract sort_Sort) (srv : server) out h' :
  reached srv ->
  articles sort_Sort (app_of no_fault no_fault srv) (srv_mem srv)
  = (inl out, h') ->
  flags_backed srv /\
  forall art l,
    In art out -> In l (article.Links art) ->
    link.Queued (h' l) =
    match fst (findLink (store_of no_fault no_fault (srv_db srv))
                 (link.URL (h' l))) with
    | Some _ => true
    | None => false
    end.
Proof.
  intros Hreach Hart.
  pose proof (reachable_flags_backed Hreach) as Hback.
  split; [exact Hback|].
  intros art l Hin Hl.
  pose proof (articles_out_retained Hsort _ _ Hart art Hin) as Hret.
  destruct (articles_ok_inv _ _ _ Hart) as (_ & -> & Hloop).
  simpl in *.
  set (s := store_of no_fault no_fault (srv_db srv)) in *.
  pose proof (articles_loop_step s (srv_lastFetch srv) [] (srv_mem srv) l)
    as [Hid Hstep].
  assert (Hurl : link.URL (snd (articles_loop s (srv_lastFetch srv) []
                                  (srv_mem srv)) l)
                 = link.URL (srv_mem srv l)) by apply Hid.
  rewrite Hurl.
  destruct (fst (findLink s (link.URL (srv_mem srv l)))) as [st|] eqn:Hst.
  - now destruct (articles_loop_marks s (srv_lastFetch srv) [] (srv_mem srv)
                    Hloop art l Hret Hl Hst).
  - rewrite Hstep.
    destruct (link.Queued (srv_mem srv l)) eqn:Hq; [|reflexivity].
    apply filter_In in Hret as [Hbatch _].
    destruct (Hback art l Hbatch Hl Hq) as [r Hr].
    unfold s in Hst. rewrite findLink_working, Hr in Hst. discriminate Hst.
Qed.

End Running.

(** ** The title filter *)

Lemma prefix_iff_app (sub : string) :
  forall s : string,
    String.prefix sub s = true <-> exists post, s = (sub ++ post)%string.
Proof.
  induction sub as [|a sub IH]; intros s.
  - split; [intros _; now exists s|intros _; now destruct s].
  - destruct s as [|b s]; simpl.
    + split; [discriminate|intros [post Hpost]; discriminate].
    + destruct (Ascii.ascii_dec a b) as [->|Hne].
      * rewrite IH. split; intros [post Hpost]; exists post.
        -- now rewrite Hpost.
        -- now injection Hpost.
      * split; [discriminate|].
        intros [post Hpost]. injection Hpost as Hab _. congruence.
Qed.

(** X13. The substring test of the title filter is exact: [Contains s sub]
    holds exactly when [s] is some text, then [sub], then some text; so
    [fetch] considers an item exactly when its lower-cased title reads
    ..."link"... *)
Theorem Contains_iff_substring (s sub : string) :
  Contains s sub = true <->
  exists pre post, s = (pre ++ sub ++ post)%string.
Proof.
  induction s as [|c s IH].
  - change (Contains "" sub) with (String.prefix sub "" || false).
    rewrite orb_false_r, prefix_iff_app. split.
    + intros [post Hpost]. now exists "", post.
    + intros [pre [post H]]. destruct pre; [now exists post|discriminate].
  - change (Contains (String c s) sub)
      with (String.prefix sub (String c s) || Contains s sub).
    rewrite orb_true_iff, IH, prefix_iff_app. split.
    + intros [[post Hpost]|[pre [post Hs]]].
      * now exists "", post.
      * exists (String c pre), post. simpl. now rewrite Hs.
    + intros [pre [post H]]. destruct pre as [|c' pre]; simpl in H.
      * left. now exists post.
      * right. injection H as _ Hs. now exists pre, post.
Qed.

(** ** app.articles: what the returned list depends on *)

Section ReconcileFrame.
Variable sort_Sort : forall A : Type, (A -> A -> bool) -> list A -> list A.


End ReconcileFrame.

(** ** walkHTML on a pointer structure with a cycle *)

Section PtrWalkCycle.
Context {V St : Type} {VS : ptr_visitor V St}.
Variable m : mem.

(** X15. Acyclicity is needed: on a node that is its own first child, with
    a visitor that never returns nil on a node, [walkHTML] does not return,
    whatever depth it is allowed. *)
Theorem ptr_walkHTML_diverges_on_cycle (p : ptr) :
  FirstChild (m p) = Some p ->
  (forall v n s,
      match ptr_visit v (Some n) s with
      | Some (None, _) => False
      | _ => True
      end) ->
  forall (fuel : nat) (v : V) (s : St), ptr_walkHTML m fuel p v s = None.
Proof.
  intros Hcycle Hdesc fuel.
  induction fuel as [fuel IH] using (well_founded_induction lt_wf).
  intros v s. destruct fuel as [|[|f]]; [reflexivity| |].
  - rewrite ptr_walkHTML_S. specialize (Hdesc v p s).
    destruct (ptr_visit v (Some p) s) as [[[vv|] s1]|];
      [reflexivity|contradiction|reflexivity].
  - rewrite ptr_walkHTML_S. specialize (Hdesc v p s).
    destruct (ptr_visit v (Some p) s) as [[[vv|] s1]|];
      [|contradiction|reflexivity].
    rewrite Hcycle, ptr_walkSiblings_S.
    now rewrite (IH f (Nat.lt_lt_succ_r _ _ (Nat.lt_succ_diag_r f)) vv s1).
Qed.

End PtrWalkCycle.

(** ** The further properties on sample inputs *)

Lemma walkHTML_visits_every_node_sample :
  entered (trace_of (VS := flattenVisitor_visit) Sample.doc tt
             (mkFlattenVisitor "")) = preorder Sample.doc /\
  exits (trace_of (VS := flattenVisitor_visit) Sample.doc tt
           (mkFlattenVisitor "")) = size Sample.doc.
Proof.
  apply (@walkHTML_visits_every_node unit flattenVisitor flattenVisitor_visit).
  intros v n s. unfold visit, flattenVisitor_visit.
  destruct (NodeType_eqb (Type_ n) TextNode); discriminate.
Defined.

Lemma articles_idempotent_sample :
  let h1 := snd (articles small_Sort SampleRuns.app0 Sample.mem0) in
  fst (articles small_Sort SampleRuns.app0 h1) = inl SampleRuns.out0 /\
  forall l, snd (articles small_Sort SampleRuns.app0 h1) l = h1 l.
Proof.
  apply (@articles_idempotent small_Sort SampleRuns.app0 Sample.mem0
           SampleRuns.out0).
  apply pair_of_fst. vm_compute. reflexivity.
Defined.

Lemma dismissed_article_not_listed_sample :
  article.URL Sample.a4 <> "http://example.com/p1".
Proof.
  apply (@dismissed_article_not_listed small_Sort small_Sort_contract 100%Z
           MoreSamples.tables "http://example.com/p1" Sample.batch Sample.mem0
           [Sample.a4; Sample.a1]
           (snd (articles small_Sort
                   (mkApp (store_of no_fault no_fault
                             (fst (markArticleDismissed None 100%Z
                                     MoreSamples.tables
                                     "http://example.com/p1")))
                      Sample.batch) Sample.mem0))).
  - reflexivity.
  - intros r [<-|[]] _. reflexivity.
  - apply pair_of_fst. vm_compute. reflexivity.
  - left. reflexivity.
Defined.

Lemma queued_link_flagged_sample :
  let h' := snd (articles small_Sort
                   (mkApp (store_of no_fault no_fault
                             (fst (markLinkQueued None 77%Z MoreSamples.tables
                                     "http://third.org/z")))
                      Sample.batch) Sample.mem0) in
  link.Queued (h' 1) = true /\
  link.QueuedAt (h' 1) =
    match find (fun r => String.eqb (linkState.URL r) "http://third.org/z")
            (links_rows MoreSamples.tables) with
    | Some r => linkState.QueuedAt r
    | None => 77%Z
    end.
Proof.
  apply (@queued_link_flagged small_Sort small_Sort_contract 77%Z
           MoreSamples.tables "http://third.org/z" Sample.batch Sample.mem0
           SampleRuns.out0
           (snd (articles small_Sort
                   (mkApp (store_of no_fault no_fault
                             (fst (markLinkQueued None 77%Z MoreSamples.tables
                                     "http://third.org/z")))
                      Sample.batch) Sample.mem0))
           (pair_of_fst _ eq_refl) Sample.a1 1).
  - right. right. left. reflexivity.
  - right. left. reflexivity.
  - reflexivity.
Defined.

Lemma reachable_Queued_iff_LinkState_sample :
  let srv := MoreSamples.refreshed in
  let h' := snd (articles small_Sort (app_of no_fault no_fault srv)
                   (srv_mem srv)) in
  flags_backed srv /\
  forall art l,
    In art MoreSamples.listed -> In l (article.Links art) ->
    link.Queued (h' l) =
    match fst (findLink (store_of no_fault no_fault (srv_db srv))
                 (link.URL (h' l))) with
    | Some _ => true
    | None => false
    end.
Proof.
  apply (@reachable_Queued_iff_LinkState Sample.ToLower Sample.url_Parse
           Sample.html_Parse small_Sort small_Sort_contract
           MoreSamples.refreshed MoreSamples.listed).
  - apply reach_refresh. apply reach_start.
  - apply pair_of_fst. vm_compute. reflexivity.
Defined.

Example refreshFeeds_sample :
  map (deref (srv_mem MoreSamples.refreshed))
    (srv_lastFetch MoreSamples.refreshed)
  = [article.mk 0 "Assorted Links" "http://example.com/post1"
       [link.mk 0 "http://other.com/y" "other.com" "see  this  " false 0%Z]
       "Example" 3%Z] /\
  link.Queued
    (snd (articles small_Sort (app_of no_fault no_fault MoreSamples.refreshed)
            (srv_mem MoreSamples.refreshed)) 0) = true.
Proof. vm_compute. split; reflexivity. Qed.


Lemma ptr_walkHTML_diverges_on_cycle_sample :
  ptr_walkHTML (VS := ptr_flattenVisitor_visit CyclicSample.looped)
    CyclicSample.looped 25 0 tt (mkFlattenVisitor "") = None.
Proof.
  apply (@ptr_walkHTML_diverges_on_cycle unit flattenVisitor
           (ptr_flattenVisitor_visit CyclicSample.looped)
           CyclicSample.looped 0).
  - reflexivity.
  - intros v n s. simpl. exact I.
Defined.
